(** * iced_fonts_macros: glyph enumeration, identifier sanitizing and module assembly

    Shallow embedding of [src/macros/src/lib.rs] ([body] and the two proc-macro
    entry points).  The font library (ttf_parser), the file system and
    [proc_macro2::Ident::new_raw] are external: they enter the model as
    arguments. *)

From Stdlib Require Import NArith Ascii String.
From stdpp Require Import base gmap list.

(** Rust [char]: a Unicode scalar value. *)
Abbreviation char := N (only parsing).
(** Rust [String] / [&str], as the sequence of its chars. *)
Abbreviation str := (list N) (only parsing).

(** ASCII literal -> [str]. *)
Fixpoint lit (s : string) : list N :=
  match s with
  | EmptyString => []
  | String a s' => N_of_ascii a :: lit s'
  end.

(** A one-char literal. *)
Definition ch (s : string) : N :=
  match s with String a _ => N_of_ascii a | EmptyString => 0%N end.

(** [str::replace(pat, to)] for a one-char pattern: every occurrence of [pat]
    is replaced by [to], scanning left to right. *)
Definition replace (pat : char) (to : str) (s : str) : str :=
  flat_map (fun x => if N.eqb x pat then to else [x]) s.

(** Lines 104-115: the chain of [replace] calls. *)
Definition replace_chain (raw_name : str) : str :=
  replace (ch "9") (lit "nine")
  (replace (ch "8") (lit "eight")
  (replace (ch "7") (lit "seven")
  (replace (ch "6") (lit "six")
  (replace (ch "5") (lit "five")
  (replace (ch "4") (lit "four")
  (replace (ch "3") (lit "three")
  (replace (ch "2") (lit "two")
  (replace (ch "1") (lit "one")
  (replace (ch "0") (lit "zero")
  (replace (ch "-") (lit "_") raw_name)))))))))).

(** Lines 104-120: the renaming of a raw glyph name. *)
Definition rename (raw_name : str) : str :=
  let processed_name := replace_chain raw_name in
  (* Material font edge case *)
  if decide (processed_name = lit "_") then lit "underscore" else processed_name.

(** Lines 126-128: the characters that make a glyph be skipped.  The double
    quote is char 34. *)
Definition illegal_chars : list N :=
  lit "+-*/@!#$%^&()=~`;:" ++ [34%N] ++ lit "',<>?. []{}|\".

Definition is_illegal (c : char) : bool := existsb (N.eqb c) illegal_chars.

(** Lines 104-131 as one function: [None] when the loop of lines 124-131
    would [continue 'outer]. *)
Definition sanitize (raw_name : str) : option str :=
  let processed_name := rename raw_name in
  if existsb is_illegal processed_name then None else Some processed_name.

(** ** The font, as ttf_parser presents it *)

(** A cmap subtable: [is_unicode()] and the u32 values its [codepoints]
    callback is called with, in enumeration order. *)
Record Subtable := {
  is_unicode : bool;
  codepoints : list N;
}.

(** A parsed [Face]: [tables().cmap] (its subtables), [glyph_index] and
    [glyph_name]. *)
Record Face := {
  cmap : option (list Subtable);
  glyph_index : char -> option N;
  glyph_name : N -> option str;
}.

(** [char::try_from(u32)]: the Unicode scalar values. *)
Definition char_try_from (c : N) : option char :=
  if (c <? 55296)%N || ((57344 <=? c)%N && (c <=? 1114111)%N) then Some c else None.

(** The ways [body] panics (an aborted macro expansion). *)
Inductive Panic :=
  | FailedToReadFontFile            (* line 68: expect *)
  | FailedToParseFont               (* line 69: expect *)
  | CmapUnwrap                      (* line 75: cmap.unwrap() on None *)
  | AddOverflow                     (* line 136: u32 [*amount + 1] with overflow checks *)
  | InvalidIdent (s : str)          (* line 163: Ident::new_raw rejects s *)
  | InvalidShaping.                 (* line 186 *)

Inductive result (A : Type) :=
  | Ok (a : A)
  | Err (e : Panic).
Arguments Ok {A} a.
Arguments Err {A} e.

(** Lines 71-86. *)
Definition all_codepoints (face : Face) : result (list char) :=
  match cmap face with
  | None => Err CmapUnwrap
  | Some subtables =>
      match find is_unicode subtables with
      | Some unicode_subtable => Ok (omap char_try_from (codepoints unicode_subtable))
      | None => Ok []
      end
  end.

(** ** Macro input and output *)

Record Input := {
  font_path : str;
  module_name : str;
  font_name : str;
  doc_link : option str;
}.

Inductive Shaping := Basic | Advanced.

(** Lines 179-189. *)
Definition shaping_of (shaping : str) : option Shaping :=
  if decide (shaping = lit "basic") then Some Basic
  else if decide (shaping = lit "advanced") then Some Advanced
  else None.

(** The [pub fn] of lines 191-198: [text(c).font(font_name).shaping(shaping)]. *)
Record WidgetFn := {
  w_name : str;
  w_doc : str;
  w_char : char;
  w_font : str;
  w_shaping : Shaping;
}.

(** The [pub fn] of lines 204-210: [(c.to_string(), font_name, shaping)]. *)
Record RawFn := {
  r_name : str;
  r_doc : str;
  r_char : char;
  r_font : str;
  r_shaping : Shaping;
}.

(** The emitted [pub mod module_name] of lines 251-268. *)
Record OutputModule := {
  mod_doc : str;
  mod_name : str;
  mod_font : str;
  COUNT : nat;
  mod_functions : list WidgetFn;
  advanced_text : option (list RawFn);
}.

(** Lines 165-177. *)
Definition widget_doc (doc_link : option str) (c : char) (processed_name raw_name : str) : str :=
  match doc_link with
  | Some location =>
      lit " Returns an [`iced_widget::Text`] widget of the [" ++ [c] ++ lit " "
        ++ processed_name ++ lit "](" ++ location ++ lit "/" ++ raw_name ++ lit ") icon."
  | None =>
      lit " Returns an [`iced_widget::Text`] widget of the " ++ [c] ++ lit " "
        ++ processed_name ++ lit " icon."
  end.

(** Lines 200-203. *)
Definition raw_doc (processed_name : str) : str :=
  lit " Returns the [`String`] of " ++ processed_name ++ lit " character for lower level API's".

(** 2^32: the values of a [u32] are those below it. *)
Definition u32_limit : N := 4294967296.

(** The mutable locals of lines 88-91.  [duplicates] is the
    [HashMap<String, u32>]: its counters are [u32] values, kept as [N].
    [count] is an integer literal that counts distinct names; there is at
    most one distinct name per [GlyphId] (a [u16]), so it never comes near an
    overflow and is kept as [nat]. *)
Record LoopState := {
  functions : list WidgetFn;
  advanced_functions : list RawFn;
  duplicates : gmap (list N) N;
  count : nat;
}.

Definition init_state : LoopState :=
  {| functions := []; advanced_functions := []; duplicates := ∅; count := 0 |}.

Section Body.

(** Whether [proc_macro2::Ident::new_raw] accepts a string (it panics on the
    rest: empty strings, non-identifiers, [_], [self], [crate], ...). *)
Variable ident_new_raw_ok : str -> bool.

(** Whether the macro crate is built with overflow checks ([cfg!(debug_assertions)]
    in cargo's default profiles): then the [u32] addition [*amount + 1]
    panics at [u32::MAX]; without them it wraps around to 0. *)
Variable overflow_checks : bool.

(** The fallback name of line 101. *)
Definition raw_name_of (face : Face) (glyph_id : N) : str :=
  default (lit "unnamed") (glyph_name face glyph_id).

(** One iteration of the ['outer] loop (lines 99-214) on codepoint [c];
    [Ok st] unchanged is a [continue 'outer]. *)
Definition step (face : Face) (doc_link : option str) (font_name : str)
    (shaping : str) (st : LoopState) (c : char) : result LoopState :=
  match glyph_index face c with
  | None => Ok st
  | Some glyph_id =>
      let raw_name := raw_name_of face glyph_id in
      let processed_name := rename raw_name in
      if existsb is_illegal processed_name then Ok st else
      match duplicates st !! processed_name with
      | Some amount =>
          if overflow_checks && (u32_limit <=? amount + 1)%N then Err AddOverflow else
          Ok {| functions := functions st;
                advanced_functions := advanced_functions st;
                duplicates := <[processed_name := ((amount + 1) mod u32_limit)%N]> (duplicates st);
                count := count st |}
      | None =>
          let duplicates' := <[processed_name := 1%N]> (duplicates st) in
          if negb (ident_new_raw_ok processed_name) then Err (InvalidIdent processed_name) else
          let fn_name := processed_name in
          let doc := widget_doc doc_link c processed_name raw_name in
          match shaping_of shaping with
          | None => Err InvalidShaping
          | Some sh =>
              Ok {| functions := functions st ++
                      [{| w_name := fn_name; w_doc := doc; w_char := c;
                          w_font := font_name; w_shaping := sh |}];
                    advanced_functions := advanced_functions st ++
                      [{| r_name := fn_name; r_doc := raw_doc processed_name; r_char := c;
                          r_font := font_name; r_shaping := sh |}];
                    duplicates := duplicates';
                    count := count st + 1 |}
          end
      end
  end.

(** [for c in all_codepoints { ... }] *)
Fixpoint run_loop (face : Face) (doc_link : option str) (font_name : str)
    (shaping : str) (st : LoopState) (cs : list char) : result LoopState :=
  match cs with
  | [] => Ok st
  | c :: cs' =>
      match step face doc_link font_name shaping st c with
      | Ok st' => run_loop face doc_link font_name shaping st' cs'
      | Err e => Err e
      end
  end.

(** [body(input, shaping)], lines 59-269.  [fs] is [std::fs::read],
    [face_parse] is [Face::parse(_, 0)], [feature_advanced_text] is
    [cfg!(feature = "advanced_text")]. *)
Definition body (fs : str -> option (list Byte.byte)) (face_parse : list Byte.byte -> option Face)
    (feature_advanced_text : bool) (input : Input) (shaping : str) : result OutputModule :=
  match fs (font_path input) with
  | None => Err FailedToReadFontFile
  | Some font_data =>
  match face_parse font_data with
  | None => Err FailedToParseFont
  | Some face =>
  match all_codepoints face with
  | Err e => Err e
  | Ok cps =>
  match run_loop face (doc_link input) (font_name input) shaping init_state cps with
  | Err e => Err e
  | Ok st =>
      Ok {| mod_doc := lit "A module with a function for every icon in "
                       ++ module_name input ++ lit "'s font.";
            mod_name := module_name input;
            mod_font := font_name input;
            COUNT := count st;
            mod_functions := functions st;
            advanced_text := if feature_advanced_text then Some (advanced_functions st) else None |}
  end end end end.

(** Lines 47-51. *)
Definition generate_icon_functions fs face_parse feature_advanced_text (input : Input) :=
  body fs face_parse feature_advanced_text input (lit "basic").

(** Lines 53-57. *)
Definition generate_icon_advanced_functions fs face_parse feature_advanced_text (input : Input) :=
  body fs face_parse feature_advanced_text input (lit "advanced").

End Body.

(** ** Reference definitions (from the spec's words), compared with the code *)

Definition is_ascii_digit (c : char) : bool := (48 <=? c)%N && (c <=? 57)%N.

Definition is_ascii_alphabetic (c : char) : bool :=
  ((65 <=? c)%N && (c <=? 90)%N) || ((97 <=? c)%N && (c <=? 122)%N).

(** Section 4.3, steps 1 and 2, one character at a time. *)
Definition subst_char (x : char) : str :=
  if (x =? 45)%N then lit "_"
  else if (x =? 48)%N then lit "zero"
  else if (x =? 49)%N then lit "one"
  else if (x =? 50)%N then lit "two"
  else if (x =? 51)%N then lit "three"
  else if (x =? 52)%N then lit "four"
  else if (x =? 53)%N then lit "five"
  else if (x =? 54)%N then lit "six"
  else if (x =? 55)%N then lit "seven"
  else if (x =? 56)%N then lit "eight"
  else if (x =? 57)%N then lit "nine"
  else [x].

(** A glyph candidate: the codepoint and its canonical name, when the
    codepoint has a glyph and the name survives [sanitize]. *)
Definition candidate (face : Face) (c : char) : option (char * str) :=
  match glyph_index face c with
  | None => None
  | Some g =>
      match sanitize (raw_name_of face g) with
      | Some p => Some (c, p)
      | None => None
      end
  end.

(** The candidates of a codepoint sequence, in enumeration order. *)
Definition candidates (face : Face) (cs : list char) : list (char * str) :=
  omap (candidate face) cs.

(** Section 4.4: first-wins deduplication; [seen] are the names already claimed. *)
Fixpoint first_wins (seen : list str) (l : list (char * str)) : list (char * str) :=
  match l with
  | [] => []
  | (c, p) :: l' =>
      if decide (p ∈ seen) then first_wins seen l'
      else (c, p) :: first_wins (p :: seen) l'
  end.

(** How many candidates carry the name [p]. *)
Definition occurrences (p : str) (l : list (char * str)) : nat :=
  length (filter (fun x => x.2 = p) l).

(** The registry entry after adding [k] more claims of a name, in [u32]
    arithmetic that wraps around. *)
Definition add_claims (o : option N) (k : nat) : option N :=
  match k with
  | 0 => o
  | S _ => Some ((default 0 o + N.of_nat k) mod u32_limit)%N
  end.

Definition w_key (w : WidgetFn) : char * str := (w_char w, w_name w).
Definition r_key (r : RawFn) : char * str := (r_char r, r_name r).

Definition result_map {A B} (f : A -> B) (r : result A) : result B :=
  match r with Ok a => Ok (f a) | Err e => Err e end.

(** The same fragments with another shaping mode. *)
Definition reshape_w (sh : Shaping) (w : WidgetFn) : WidgetFn :=
  {| w_name := w_name w; w_doc := w_doc w; w_char := w_char w; w_font := w_font w; w_shaping := sh |}.
Definition reshape_r (sh : Shaping) (r : RawFn) : RawFn :=
  {| r_name := r_name r; r_doc := r_doc r; r_char := r_char r; r_font := r_font r; r_shaping := sh |}.
Definition reshape_state (sh : Shaping) (st : LoopState) : LoopState :=
  {| functions := map (reshape_w sh) (functions st);
     advanced_functions := map (reshape_r sh) (advanced_functions st);
     duplicates := duplicates st; count := count st |}.
Definition reshape_module (sh : Shaping) (m : OutputModule) : OutputModule :=
  {| mod_doc := mod_doc m; mod_name := mod_name m; mod_font := mod_font m; COUNT := COUNT m;
     mod_functions := map (reshape_w sh) (mod_functions m);
     advanced_text := option_map (map (reshape_r sh)) (advanced_text m) |}.

(** ** A sample font, for concrete runs *)

Definition sample_glyph_name (g : N) : option str :=
  match g with
  | 1%N => Some (lit "heart")
  | 2%N => Some (lit "heart-fill")
  | 3%N => Some (lit "1")
  | 5%N => Some (lit "star")
  | 6%N => Some (lit "star")
  | 7%N => Some (lit "file.txt")
  | _ => None
  end.

(** Codepoints U+E000..U+E007 map to glyphs 1..8. *)
Definition sample_glyph_index (c : char) : option N :=
  if (57344 <=? c)%N && (c <=? 57351)%N then Some (c - 57343)%N else None.

(** A non-Unicode subtable first, then a Unicode one that also lists a
    surrogate (U+D800) and a codepoint without a glyph (U+E038). *)
Definition sample_face : Face :=
  {| cmap := Some [{| is_unicode := false; codepoints := [65%N] |};
                   {| is_unicode := true;
                      codepoints := [57344; 57345; 55296; 57346; 57347; 57348;
                                     57349; 57350; 57400; 57351]%N |}];
     glyph_index := sample_glyph_index;
     glyph_name := sample_glyph_name |}.

(** The same glyphs, with a cmap that has no Unicode subtable. *)
Definition no_unicode_face : Face :=
  {| cmap := Some [{| is_unicode := false; codepoints := [57344; 57345]%N |}];
     glyph_index := sample_glyph_index;
     glyph_name := sample_glyph_name |}.

Definition sample_input : Input :=
  {| font_path := lit "fonts/sample.ttf"; module_name := lit "sample";
     font_name := lit "SAMPLE_FONT"; doc_link := None |}.

Definition sample_fs (path : str) : option (list Byte.byte) :=
  if decide (path = lit "fonts/sample.ttf") then Some [Byte.x00; Byte.x01] else None.

(** Accepts every non-empty string. *)
Definition sample_ident_ok (s : str) : bool := negb (bool_decide (s = [])).

(** A cmap-less face. *)
Definition no_cmap_face : Face :=
  {| cmap := None; glyph_index := sample_glyph_index; glyph_name := sample_glyph_name |}.

(** A font whose Unicode subtable lists the codepoint U+E000 twice. *)
Definition repeated_face : Face :=
  {| cmap := Some [{| is_unicode := true; codepoints := [57344; 57345; 57344]%N |}];
     glyph_index := sample_glyph_index;
     glyph_name := sample_glyph_name |}.

(** The Private Use Area U+E000..U+F8FF. *)
Definition pua_block : list N := map (fun i => 57344 + N.of_nat i)%N (seq 0 (N.to_nat 6400)).

(** 671089 groups of 6400 codepoints: 4294969600 codepoints, more than 2^32. *)
Definition overflow_groups : nat := N.to_nat 671089.

(** A font whose Unicode subtable is a format-13 (many-to-one) cmap of
    [overflow_groups] identical groups, each mapping U+E000..U+F8FF to glyph 1,
    named "star" (about 8 MB of cmap data).  ttf_parser enumerates the
    codepoints of each group in turn. *)
Definition overflow_face : Face :=
  {| cmap := Some [{| is_unicode := true;
                      codepoints := concat (repeat pua_block overflow_groups) |}];
     glyph_index := fun c => if (57344 <=? c)%N && (c <? 63744)%N then Some 1%N else None;
     glyph_name := fun g => if (g =? 1)%N then Some (lit "star") else None |}.

(** A loop state whose "star" counter is at [u32::MAX]. *)
Definition full_state : LoopState :=
  {| functions := []; advanced_functions := [];
     duplicates := <[lit "star" := 4294967295%N]> ∅; count := 0 |}.

(** What lines 71-86 collect from [sample_face]. *)
Definition sample_codepoints : list char :=
  [57344; 57345; 57346; 57347; 57348; 57349; 57350; 57400; 57351]%N.

(** The loop state after the sample font. *)
Definition sample_loop_state : LoopState :=
  Eval cbv in
  match run_loop sample_ident_ok true sample_face None (lit "SAMPLE_FONT") (lit "basic")
          init_state sample_codepoints with
  | Ok st => st
  | Err _ => init_state
  end.

(** The module generated from the sample font, with the advanced_text feature. *)
Definition sample_module : OutputModule :=
  Eval cbv in
  match body sample_ident_ok true sample_fs (fun _ => Some sample_face) true sample_input (lit "basic") with
  | Ok m => m
  | Err _ => {| mod_doc := []; mod_name := []; mod_font := []; COUNT := 0;
                mod_functions := []; advanced_text := None |}
  end.

(** ** Sanitizer lemmas *)

Lemma replace_app (pat : char) (to a b : str) :
  replace pat to (a ++ b) = replace pat to a ++ replace pat to b.
Proof. unfold replace. apply flat_map_app. Qed.

Lemma replace_single_ne (pat : char) (to : str) (x : char) :
  x <> pat -> replace pat to [x] = [x].
Proof. intros H. unfold replace. simpl. rewrite (proj2 (N.eqb_neq x pat) H). reflexivity. Qed.

Lemma replace_chain_app (a b : str) :
  replace_chain (a ++ b) = replace_chain a ++ replace_chain b.
Proof. unfold replace_chain. rewrite !replace_app. reflexivity. Qed.

Lemma replace_chain_single (x : char) : replace_chain [x] = subst_char x.
Proof.
  unfold subst_char.
  destruct (N.eqb_spec x 45); [subst; reflexivity|].
  destruct (N.eqb_spec x 48); [subst; reflexivity|].
  destruct (N.eqb_spec x 49); [subst; reflexivity|].
  destruct (N.eqb_spec x 50); [subst; reflexivity|].
  destruct (N.eqb_spec x 51); [subst; reflexivity|].
  destruct (N.eqb_spec x 52); [subst; reflexivity|].
  destruct (N.eqb_spec x 53); [subst; reflexivity|].
  destruct (N.eqb_spec x 54); [subst; reflexivity|].
  destruct (N.eqb_spec x 55); [subst; reflexivity|].
  destruct (N.eqb_spec x 56); [subst; reflexivity|].
  destruct (N.eqb_spec x 57); [subst; reflexivity|].
  unfold replace_chain.
  rewrite !replace_single_ne by (intros ->; vm_compute in *; congruence).
  reflexivity.
Qed.

Lemma replace_chain_flat_map (raw : str) : replace_chain raw = flat_map subst_char raw.
Proof.
  induction raw as [|x raw IH]; [reflexivity|].
  change (x :: raw) with ([x] ++ raw).
  rewrite replace_chain_app, replace_chain_single, IH. reflexivity.
Qed.

Lemma subst_char_shape (x y : char) :
  In y (subst_char x) ->
  is_ascii_digit y = false /\ y <> 45%N /\ (y = x \/ is_ascii_alphabetic y = true \/ y = 95%N).
Proof.
  unfold subst_char, is_ascii_digit, is_ascii_alphabetic.
  repeat match goal with
  | |- context [if (x =? ?k)%N then _ else _] =>
      destruct (N.eqb_spec x k) as [->|?];
      [simpl; intros H; repeat (destruct H as [<-|H]); try contradiction;
       vm_compute; repeat split; try discriminate; try reflexivity;
       first [right; left; reflexivity | right; right; reflexivity]|]
  end.
  intros [->|[]]; split; [|split; [done|auto]].
  destruct (N.leb_spec 48 y), (N.leb_spec y 57); simpl; auto; lia.
Qed.

Lemma subst_char_nonempty (x : char) : subst_char x <> [].
Proof. unfold subst_char. repeat destruct (N.eqb _ _); discriminate. Qed.

Lemma rename_cases (raw : str) :
  rename raw = lit "underscore" /\ replace_chain raw = lit "_" \/
  rename raw = flat_map subst_char raw /\ replace_chain raw <> lit "_".
Proof.
  unfold rename. rewrite <- replace_chain_flat_map.
  case_decide; auto.
Qed.

(** The printable ASCII characters that are neither illegal nor digits. *)
Lemma printable_kept (y : char) :
  (32 <= y <= 126)%N -> is_illegal y = false -> is_ascii_digit y = false ->
  is_ascii_alphabetic y = true \/ y = 95%N.
Proof.
  intros Hr Hi Hd.
  assert (Hall : forallb (fun n => let y := N.of_nat n in
            negb (negb (is_illegal y) && negb (is_ascii_digit y))
            || is_ascii_alphabetic y || (y =? 95)%N) (seq 32 95) = true)
    by (vm_compute; reflexivity).
  rewrite forallb_forall in Hall.
  specialize (Hall (N.to_nat y)). cbv zeta in Hall. rewrite in_seq, N2Nat.id in Hall.
  rewrite Hi, Hd in Hall. simpl in Hall.
  destruct (is_ascii_alphabetic y); [auto|].
  right. apply N.eqb_eq, Hall. lia.
Qed.

Lemma existsb_false_In {A} (f : A -> bool) (l : list A) (y : A) :
  existsb f l = false -> In y l -> f y = false.
Proof.
  intros E Hin. destruct (f y) eqn:Ey; [|done].
  assert (existsb f l = true) by (apply existsb_exists; eauto). congruence.
Qed.

Lemma illegal_char_shape (c : char) :
  is_illegal c = true -> (c < 128)%N /\ is_ascii_alphabetic c = false /\ c <> 95%N.
Proof.
  unfold is_illegal. intros H. apply existsb_exists in H as [x [Hin Heq]].
  apply N.eqb_eq in Heq. subst x.
  vm_compute in Hin.
  repeat (destruct Hin as [<-|Hin]; [vm_compute; repeat split; try reflexivity; discriminate|]).
  contradiction.
Qed.

Lemma subst_char_plain (c : char) :
  (c <> 45 /\ is_ascii_digit c = false)%N -> subst_char c = [c].
Proof.
  intros [H45 Hd]. unfold is_ascii_digit in Hd. unfold subst_char.
  repeat match goal with
  | |- context [if (c =? ?k)%N then _ else _] =>
      destruct (N.eqb_spec c k) as [->|?]; [vm_compute in *; congruence|]
  end.
  reflexivity.
Qed.

Lemma flat_map_subst_plain (name : str) :
  Forall (fun c => c <> 45%N /\ is_ascii_digit c = false) name ->
  flat_map subst_char name = name.
Proof.
  induction 1 as [|c name Hc _ IH]; [done|].
  simpl. rewrite subst_char_plain by done. simpl. f_equal. exact IH.
Qed.

(** ** C4: digits and hyphens are character-level substitutions *)

(** C4: the [replace] chain of lines 104-115 replaces every hyphen by an
    underscore and every ASCII digit by its English word, each character on
    its own; in particular the raw name "1f600" sanitizes to "onefsixzerozero". *)
Theorem replace_chain_is_char_substitution :
  (forall raw : str, replace_chain raw = flat_map subst_char raw) /\
  sanitize (lit "1f600") = Some (lit "onefsixzerozero").
Proof. split; [exact replace_chain_flat_map | reflexivity]. Qed.

(** ** C3: the shape of a surviving canonical name *)

(** C3 (counterexample): a raw name with a tab survives sanitizing with the
    tab in it, and the empty raw name survives as the empty name. *)
Lemma sanitize_keeps_non_letters :
  sanitize [97; 9; 98]%N = Some [97; 9; 98]%N /\
  ~ (is_ascii_alphabetic 9 = true \/ (9 = 95)%N) /\
  sanitize [] = Some [].
Proof.
  split; [reflexivity|]. split; [|reflexivity].
  intros [H|H]; discriminate.
Qed.

(** C3 (amended): a name that survives sanitizing has no ASCII digit and no
    character of the disallowed set, its printable ASCII characters are
    letters or underscores, and it is empty exactly when the raw name is
    empty; a name that is "_" after substitution becomes "underscore". *)
Theorem sanitize_output_shape (raw : str) :
  (forall p, sanitize raw = Some p ->
     (forall y, In y p -> is_illegal y = false /\ is_ascii_digit y = false) /\
     (forall y, In y p -> (32 <= y <= 126)%N -> is_ascii_alphabetic y = true \/ y = 95%N) /\
     (p = [] <-> raw = [])) /\
  (replace_chain raw = lit "_" -> sanitize raw = Some (lit "underscore")).
Proof.
  split.
  - intros p Hs. unfold sanitize in Hs.
    destruct (existsb is_illegal (rename raw)) eqn:Ei; [discriminate|].
    injection Hs as <-.
    assert (Hy : forall y, In y (rename raw) -> is_illegal y = false /\ is_ascii_digit y = false).
    { intros y Hin. split; [exact (existsb_false_In _ _ _ Ei Hin)|].
      destruct (rename_cases raw) as [[E _]|[E _]]; rewrite E in Hin.
      - vm_compute in Hin. repeat (destruct Hin as [<-|Hin]; [reflexivity|]). contradiction.
      - apply in_flat_map in Hin as [x [_ Hx]]. apply (subst_char_shape x y Hx). }
    split; [exact Hy|]. split.
    + intros y Hin Hr. destruct (Hy y Hin). apply printable_kept; auto.
    + destruct (rename_cases raw) as [[E Hc]|[E _]]; rewrite E.
      * split; [discriminate|]. intros ->. discriminate.
      * destruct raw as [|x raw]; [done|]. split; [|discriminate].
        simpl. intros Happ. apply app_eq_nil in Happ as [Hx _].
        exact (False_ind _ (subst_char_nonempty x Hx)).
  - intros H. unfold sanitize, rename. rewrite H. reflexivity.
Qed.

(** ** C5: names of letters and underscores *)

(** C5 (counterexample): the name "_" consists of underscores only, yet
    sanitizing changes it. *)
Lemma sanitize_underscore_not_identity :
  Forall (fun c => is_ascii_alphabetic c = true \/ c = 95%N) (lit "_") /\
  sanitize (lit "_") = Some (lit "underscore") /\ lit "_" <> lit "underscore".
Proof.
  split; [repeat constructor; right; reflexivity|].
  split; [reflexivity | discriminate].
Qed.

Section Letters.

(** Rust's [char::is_alphabetic]: a Unicode property that agrees with ASCII
    letters on the ASCII range. *)
Variable is_alphabetic : char -> bool.
Hypothesis is_alphabetic_ascii :
  forall c, (c < 128)%N -> is_alphabetic c = is_ascii_alphabetic c.

(** C5 (amended): a glyph name made only of letters and underscores (no digits,
    no hyphens) comes out of sanitizing unchanged, except the single name "_",
    which becomes "underscore". *)
Theorem sanitize_letters_identity (name : str) :
  Forall (fun c => is_alphabetic c = true \/ c = 95%N) name ->
  sanitize name = Some (if decide (name = lit "_") then lit "underscore" else name).
Proof.
  intros Hall.
  assert (Hc : forall c, is_alphabetic c = true \/ c = 95%N ->
                 (c <> 45 /\ is_ascii_digit c = false)%N /\ is_illegal c = false).
  { intros c Hc.
    destruct (N.ltb_spec c 128) as [Hlt|Hge].
    - rewrite (is_alphabetic_ascii c Hlt) in Hc.
      unfold is_ascii_alphabetic, is_ascii_digit in *.
      split; [split|].
      + intros ->. destruct Hc as [Hc|Hc]; discriminate.
      + destruct Hc as [Hc | ->]; [|reflexivity].
        destruct (N.leb_spec 65 c), (N.leb_spec c 90), (N.leb_spec 97 c), (N.leb_spec c 122);
          simpl in Hc; try discriminate;
          destruct (N.leb_spec 48 c), (N.leb_spec c 57); simpl; auto; lia.
      + destruct (is_illegal c) eqn:E; [|done].
        apply illegal_char_shape in E as (_ & Ha & H95).
        destruct Hc as [Hc|Hc]; [|contradiction].
        unfold is_ascii_alphabetic in Ha. congruence.
    - split; [split|].
      + intros ->. lia.
      + unfold is_ascii_digit. destruct (N.leb_spec c 57); [lia|].
        rewrite andb_false_r. reflexivity.
      + destruct (is_illegal c) eqn:E; [|done].
        apply illegal_char_shape in E as (? & _). lia. }
  assert (Hplain : flat_map subst_char name = name).
  { apply flat_map_subst_plain. eapply Forall_impl; [exact Hall|].
    intros c H. exact (proj1 (Hc c H)). }
  unfold sanitize, rename. rewrite replace_chain_flat_map, Hplain.
  case_decide as Hu; [reflexivity|].
  assert (Hn : existsb is_illegal name = false).
  { clear - Hall Hc. induction Hall as [|c name' Hc1 _ IH]; [reflexivity|].
    simpl. rewrite (proj2 (Hc c Hc1)). exact IH. }
  rewrite Hn. reflexivity.
Qed.

End Letters.

Lemma sanitize_letters_identity_witness :
  Forall (fun c => is_ascii_alphabetic c = true \/ c = 95%N) (lit "heart_fill") /\
  sanitize (lit "heart_fill") = Some (lit "heart_fill").
Proof.
  assert (H : Forall (fun c => is_ascii_alphabetic c = true \/ c = 95%N) (lit "heart_fill"))
    by (repeat (constructor; [first [left; reflexivity | right; reflexivity]|]);
        constructor).
  split; [exact H|].
  exact (sanitize_letters_identity is_ascii_alphabetic (fun c _ => eq_refl) (lit "heart_fill") H).
Defined.

(** ** C6: glyphs whose name keeps a disallowed character are skipped *)

(** C6: when the renamed glyph name contains a character of the disallowed
    set, the loop iteration is a [continue 'outer]: no fragment, no registry
    entry, no count increment, no error. *)
Theorem step_skips_illegal (ident_ok : str -> bool) (overflow_checks : bool) (face : Face) (doc_link : option str)
    (font_name shaping : str) (st : LoopState) (c : char) (g : N) :
  glyph_index face c = Some g ->
  Exists (fun x => is_illegal x = true) (rename (raw_name_of face g)) ->
  step ident_ok overflow_checks face doc_link font_name shaping st c = Ok st.
Proof.
  intros Hg Hex. unfold step. rewrite Hg.
  assert (existsb is_illegal (rename (raw_name_of face g)) = true) as ->.
  { apply existsb_exists. apply List.Exists_exists in Hex. exact Hex. }
  reflexivity.
Qed.

Lemma step_skips_illegal_witness :
  step sample_ident_ok true sample_face None (lit "SAMPLE_FONT") (lit "basic") init_state 57350%N
  = Ok init_state.
Proof.
  apply (step_skips_illegal sample_ident_ok true sample_face None (lit "SAMPLE_FONT") (lit "basic")
           init_state 57350%N 7%N).
  - reflexivity.
  - vm_compute. repeat (first [constructor 1; reflexivity | constructor 2]).
Defined.

(** ** The loop: registry and fragments *)

Lemma candidates_cons (face : Face) (c : char) (cs : list char) :
  candidates face (c :: cs) =
  match candidate face c with Some x => x :: candidates face cs | None => candidates face cs end.
Proof. reflexivity. Qed.

Lemma occurrences_cons (q : str) (c : char) (p : str) (l : list (char * str)) :
  occurrences q ((c, p) :: l) = (if decide (p = q) then 1 else 0) + occurrences q l.
Proof. unfold occurrences. rewrite filter_cons. simpl. case_decide; reflexivity. Qed.

(** What one iteration does, by the candidate of the codepoint. *)
Lemma step_cases (ident_ok : str -> bool) (overflow_checks : bool) (face : Face) (doc_link : option str)
    (font_name shaping : str) (st : LoopState) (c : char) :
  match candidate face c with
  | None => step ident_ok overflow_checks face doc_link font_name shaping st c = Ok st
  | Some (c', p) =>
      c' = c /\
      match duplicates st !! p with
      | Some a =>
          (overflow_checks = true /\ (u32_limit <= a + 1)%N /\
           step ident_ok overflow_checks face doc_link font_name shaping st c = Err AddOverflow) \/
          ((overflow_checks = false \/ (a + 1 < u32_limit)%N) /\
           step ident_ok overflow_checks face doc_link font_name shaping st c =
           Ok {| functions := functions st; advanced_functions := advanced_functions st;
                 duplicates := <[p := ((a + 1) mod u32_limit)%N]> (duplicates st);
                 count := count st |})
      | None =>
          (exists e, step ident_ok overflow_checks face doc_link font_name shaping st c = Err e) \/
          exists w r, step ident_ok overflow_checks face doc_link font_name shaping st c =
            Ok {| functions := functions st ++ [w];
                  advanced_functions := advanced_functions st ++ [r];
                  duplicates := <[p := 1%N]> (duplicates st); count := count st + 1 |}
            /\ w_key w = (c, p) /\ r_key r = (c, p)
      end
  end.
Proof.
  unfold candidate, step, sanitize.
  destruct (glyph_index face c) as [g|]; [|reflexivity].
  destruct (existsb is_illegal (rename (raw_name_of face g))); [reflexivity|].
  split; [reflexivity|].
  destruct (duplicates st !! rename (raw_name_of face g)) as [a|].
  { destruct overflow_checks; simpl; [destruct (N.leb_spec u32_limit (a + 1))|].
    - left. auto.
    - right. auto.
    - right. auto. }
  destruct (ident_ok (rename (raw_name_of face g))); simpl; [|left; eauto].
  destruct (shaping_of shaping) as [sh|]; [|left; eauto].
  right. do 2 eexists. split; [reflexivity|]. split; reflexivity.
Qed.

(** The loop from any state: the fragments it appends are the first-wins
    candidates not yet in the registry, and the registry counts every claim. *)
Lemma run_loop_spec (ident_ok : str -> bool) (overflow_checks : bool) (face : Face) (doc_link : option str)
    (font_name shaping : str) (cs : list char) :
  forall (st st' : LoopState) (seen : list str),
  (forall p, p ∈ seen <-> is_Some (duplicates st !! p)) ->
  run_loop ident_ok overflow_checks face doc_link font_name shaping st cs = Ok st' ->
  map w_key (functions st') = map w_key (functions st) ++ first_wins seen (candidates face cs) /\
  map r_key (advanced_functions st') =
    map r_key (advanced_functions st) ++ first_wins seen (candidates face cs) /\
  count st' = count st + length (first_wins seen (candidates face cs)) /\
  (forall p, duplicates st' !! p =
     add_claims (duplicates st !! p) (occurrences p (candidates face cs))).
Proof.
  induction cs as [|c cs IH]; intros st st' seen Hseen Hrun.
  - simpl in Hrun. injection Hrun as <-. simpl.
    rewrite !app_nil_r. split; [done|]. split; [done|]. split; [lia|].
    intros p. reflexivity.
  - simpl in Hrun. rewrite candidates_cons.
    pose proof (step_cases ident_ok overflow_checks face doc_link font_name shaping st c) as Hstep.
    destruct (candidate face c) as [[c' p]|].
    + destruct Hstep as [-> Hstep].
      destruct (duplicates st !! p) as [a|] eqn:Ep.
      * destruct Hstep as [(_ & _ & He)|(_ & Hstep)]; [rewrite He in Hrun; discriminate|].
        rewrite Hstep in Hrun.
        assert (Hin : p ∈ seen) by (apply Hseen; rewrite Ep; eauto).
        simpl. rewrite decide_True by exact Hin.
        edestruct IH as (H1 & H2 & H3 & H4); [|exact Hrun|]; simpl.
        { intros q. rewrite Hseen. destruct (decide (p = q)) as [<-|Hne].
          - rewrite lookup_insert_eq, Ep. split; eauto.
          - rewrite lookup_insert_ne by exact Hne. reflexivity. }
        simpl in H1, H2, H3. split; [exact H1|]. split; [exact H2|]. split; [exact H3|].
        intros q. rewrite H4, occurrences_cons. cbn [duplicates].
        destruct (decide (p = q)) as [<-|Hne].
        -- rewrite lookup_insert_eq, Ep.
           destruct (occurrences p (candidates face cs)) as [|k];
             cbn [Nat.add add_claims default]; unfold id; [reflexivity|].
           unfold id. rewrite N.Div0.add_mod_idemp_l. do 2 f_equal. lia.
        -- rewrite lookup_insert_ne by exact Hne. reflexivity.
      * destruct Hstep as [[e He]|(w & r & Hst & Hw & Hr)].
        { rewrite He in Hrun. discriminate. }
        rewrite Hst in Hrun.
        assert (Hnin : p ∉ seen) by (rewrite Hseen, Ep; intros [? ?]; discriminate).
        simpl. rewrite decide_False by exact Hnin.
        edestruct IH as (H1 & H2 & H3 & H4); [|exact Hrun|]; simpl.
        { intros q. rewrite elem_of_cons, Hseen. destruct (decide (p = q)) as [<-|Hne].
          - rewrite lookup_insert_eq. split; eauto.
          - rewrite lookup_insert_ne by exact Hne.
            split; [intros [Heq|H]; [congruence|exact H] | intros H; right; exact H]. }
        simpl in H1, H2, H3.
        rewrite map_app in H1, H2. simpl in H1, H2. rewrite Hw in H1. rewrite Hr in H2.
        rewrite <- app_assoc in H1, H2. simpl in H1, H2.
        split; [exact H1|]. split; [exact H2|]. split; [simpl; lia|].
        intros q. rewrite H4, occurrences_cons. cbn [duplicates].
        destruct (decide (p = q)) as [<-|Hne].
        -- rewrite lookup_insert_eq, Ep.
           destruct (occurrences p (candidates face cs)) as [|k];
             cbn [Nat.add add_claims default]; unfold id; [reflexivity|].
           do 2 f_equal. lia.
        -- rewrite lookup_insert_ne by exact Hne. reflexivity.
    + rewrite Hstep in Hrun. exact (IH st st' seen Hseen Hrun).
Qed.

Lemma seen_empty (p : str) : p ∈ ([] : list str) <-> is_Some ((∅ : gmap (list N) N) !! p).
Proof.
  rewrite lookup_empty. split; [intros Hp; apply elem_of_nil in Hp; contradiction|].
  intros [x Hx]. discriminate.
Qed.

Lemma run_loop_init (ident_ok : str -> bool) (overflow_checks : bool) (face : Face) (doc_link : option str)
    (font_name shaping : str) (cs : list char) (st : LoopState) :
  run_loop ident_ok overflow_checks face doc_link font_name shaping init_state cs = Ok st ->
  map w_key (functions st) = first_wins [] (candidates face cs) /\
  map r_key (advanced_functions st) = first_wins [] (candidates face cs) /\
  count st = length (first_wins [] (candidates face cs)) /\
  (forall p, duplicates st !! p = add_claims None (occurrences p (candidates face cs))).
Proof.
  intros Hrun.
  destruct (run_loop_spec ident_ok overflow_checks face doc_link font_name shaping cs init_state st []
              seen_empty Hrun) as (H1 & H2 & H3 & H4).
  simpl in H1, H2, H3. split; [exact H1|]. split; [exact H2|]. split; [exact H3|].
  intros p. rewrite H4. reflexivity.
Qed.

Lemma char_try_from_Some (c c' : N) :
  char_try_from c = Some c' <-> c' = c /\ (c < 55296 \/ 57344 <= c <= 1114111)%N.
Proof.
  unfold char_try_from.
  destruct (N.ltb_spec c 55296), (N.leb_spec 57344 c), (N.leb_spec c 1114111); simpl;
    split; intros Hs; try (injection Hs as <-); try discriminate;
    try (destruct Hs as [-> _]; reflexivity); try (destruct Hs as [_ Hs]; lia); lia.
Qed.

Lemma shaping_of_basic : shaping_of (lit "basic") = Some Basic.
Proof. reflexivity. Qed.

Lemma shaping_of_advanced : shaping_of (lit "advanced") = Some Advanced.
Proof. reflexivity. Qed.

(** ** C1: first-wins deduplication *)

(** With overflow checks, the loop counts the claims of every name: a run
    succeeds only if no name reaches [u32::MAX + 1] claims. *)
Lemma run_loop_claims_bound (ident_ok : str -> bool) (overflow_checks : bool) (face : Face)
    (doc_link : option str) (font_name shaping : str) (cs : list char) :
  forall st st' : LoopState,
  overflow_checks = true ->
  run_loop ident_ok overflow_checks face doc_link font_name shaping st cs = Ok st' ->
  forall p, (forall a, duplicates st !! p = Some a -> (a < u32_limit)%N) ->
  (default 0 (duplicates st !! p) + N.of_nat (occurrences p (candidates face cs)) < u32_limit)%N.
Proof.
  induction cs as [|c cs IH]; intros st st' Ho Hrun p Hp.
  - change (occurrences p (candidates face [])) with 0.
    destruct (duplicates st !! p) as [a|]; cbn [default id].
    + pose proof (Hp a eq_refl). lia.
    + unfold u32_limit. lia.
  - cbn [run_loop] in Hrun. rewrite candidates_cons.
    pose proof (step_cases ident_ok overflow_checks face doc_link font_name shaping st c) as Hs.
    destruct (candidate face c) as [[c' q]|].
    + destruct Hs as [-> Hs]. rewrite occurrences_cons.
      destruct (duplicates st !! q) as [a|] eqn:Eq.
      * destruct Hs as [(_ & _ & He)|(Hb & Hs)]; [rewrite He in Hrun; discriminate|].
        rewrite Hs in Hrun. destruct Hb as [Hb|Hb]; [congruence|].
        specialize (IH _ _ Ho Hrun p). cbn [duplicates] in IH.
        destruct (decide (q = p)) as [<-|Hne].
        -- rewrite lookup_insert_eq, N.mod_small in IH by exact Hb.
           rewrite Eq. cbn [default id] in IH |- *.
           assert (IH' : (a + 1 + N.of_nat (occurrences q (candidates face cs)) < u32_limit)%N)
             by (apply IH; intros a' Ha'; injection Ha' as <-; exact Hb).
           lia.
        -- rewrite lookup_insert_ne in IH by exact Hne. exact (IH Hp).
      * destruct Hs as [[e He]|(w & r & Hs & _ & _)]; [rewrite He in Hrun; discriminate|].
        rewrite Hs in Hrun.
        specialize (IH _ _ Ho Hrun p). cbn [duplicates] in IH.
        destruct (decide (q = p)) as [<-|Hne].
        -- rewrite lookup_insert_eq in IH. rewrite Eq. cbn [default id] in IH |- *.
           assert (IH' : (1 + N.of_nat (occurrences q (candidates face cs)) < u32_limit)%N)
             by (apply IH; intros a' Ha'; injection Ha' as <-; unfold u32_limit; lia).
           lia.
        -- rewrite lookup_insert_ne in IH by exact Hne. exact (IH Hp).
    + rewrite Hs in Hrun. exact (IH st st' Ho Hrun p Hp).
Qed.

(** With overflow checks, codepoints that all carry the name [p] abort the
    loop once [p] would be claimed [2^32] times. *)
Lemma run_loop_same_name_overflow (ident_ok : str -> bool) (face : Face)
    (doc_link : option str) (font_name shaping : str) (p : str) (l : list char) :
  forall st : LoopState,
  ident_ok p = true -> is_Some (shaping_of shaping) ->
  (forall c, In c l -> candidate face c = Some (c, p)) ->
  (forall a, duplicates st !! p = Some a -> (a < u32_limit)%N) ->
  (u32_limit <= default 0 (duplicates st !! p) + N.of_nat (length l))%N ->
  run_loop ident_ok true face doc_link font_name shaping st l = Err AddOverflow.
Proof.
  induction l as [|c l IH]; intros st Hid [sh Hsh] Hc Hp Hlen.
  - exfalso. cbn [length] in Hlen.
    destruct (duplicates st !! p) as [a|]; cbn [default id] in Hlen.
    + pose proof (Hp a eq_refl). lia.
    + unfold u32_limit in Hlen. lia.
  - cbn [run_loop].
    pose proof (Hc c (in_eq c l)) as Hcc. unfold candidate, sanitize in Hcc.
    unfold step.
    destruct (glyph_index face c) as [g|]; [|discriminate].
    destruct (existsb is_illegal (rename (raw_name_of face g))); [discriminate|].
    injection Hcc as ->.
    assert (Hc' : forall c0, In c0 l -> candidate face c0 = Some (c0, p))
      by (intros c0 H0; apply Hc; right; exact H0).
    destruct (duplicates st !! p) as [a|] eqn:Ep.
    + cbn [andb]. destruct (N.leb_spec u32_limit (a + 1)) as [Hge|Hlt]; [reflexivity|].
      apply IH; [exact Hid|eexists; exact Hsh|exact Hc'| |].
      * cbn [duplicates]. rewrite lookup_insert_eq. intros a' Ha'. injection Ha' as <-.
        rewrite N.mod_small by exact Hlt. exact Hlt.
      * cbn [duplicates]. rewrite lookup_insert_eq. cbn [default id].
        rewrite N.mod_small by exact Hlt. cbn [default id length] in Hlen. lia.
    + rewrite Hid, Hsh. cbn [negb]. apply IH; [exact Hid|eexists; exact Hsh|exact Hc'| |].
      * cbn [duplicates]. rewrite lookup_insert_eq. intros a' Ha'. injection Ha' as <-.
        unfold u32_limit. lia.
      * cbn [duplicates]. rewrite lookup_insert_eq. cbn [default id length] in Hlen |- *. lia.
Qed.

Lemma length_concat_repeat {A} (l : list A) (n : nat) :
  length (concat (repeat l n)) = n * length l.
Proof. induction n as [|n IH]; [reflexivity|]. cbn [repeat concat]. rewrite length_app, IH. lia. Qed.

Lemma overflow_face_codepoints (c : char) :
  In c (concat (repeat pua_block overflow_groups)) -> (57344 <= c < 63744)%N.
Proof.
  intros Hin. apply in_concat in Hin as [l [Hl Hc]].
  apply repeat_spec in Hl as ->. unfold pua_block in Hc.
  apply in_map_iff in Hc as [i [<- Hi]]. apply in_seq in Hi. lia.
Qed.

Lemma overflow_face_candidate (c : char) :
  (57344 <= c < 63744)%N -> candidate overflow_face c = Some (c, lit "star").
Proof.
  intros Hc. unfold candidate.
  change (glyph_index overflow_face c)
    with (if (57344 <=? c)%N && (c <? 63744)%N then Some 1%N else None).
  destruct (N.leb_spec 57344 c), (N.ltb_spec c 63744); [|lia..].
  reflexivity.
Qed.

Lemma overflow_face_all_codepoints :
  all_codepoints overflow_face = Ok (concat (repeat pua_block overflow_groups)).
Proof.
  pose proof overflow_face_codepoints as Hall.
  unfold all_codepoints.
  change (cmap overflow_face)
    with (Some [{| is_unicode := true; codepoints := concat (repeat pua_block overflow_groups) |}]).
  revert Hall. generalize (concat (repeat pua_block overflow_groups)). intros L Hall.
  cbn [find is_unicode codepoints]. apply (f_equal Ok).
  induction L as [|x l IH]; [reflexivity|].
  simpl. destruct (Hall x (in_eq x l)) as [H1 H2].
  assert (Hx : char_try_from x = Some x) by (apply char_try_from_Some; split; [reflexivity|lia]).
  rewrite Hx. f_equal. apply IH. intros c Hc. apply Hall. right. exact Hc.
Qed.

(** C1 (counterexample): the registry counter is a [u32].  In
    [overflow_face], whose cmap lists more than 2^32 codepoints that all map
    to the glyph "star", the pass built with overflow checks panics at the
    claim that takes the counter past [u32::MAX], instead of silently
    skipping that glyph. *)
Lemma star_counter_overflows :
  body sample_ident_ok true sample_fs (fun _ => Some overflow_face) false sample_input
    (lit "basic") = Err AddOverflow.
Proof.
  unfold body.
  replace (sample_fs (font_path sample_input)) with (Some [Byte.x00; Byte.x01])
    by (vm_compute; reflexivity).
  cbv beta iota. rewrite overflow_face_all_codepoints.
  rewrite (run_loop_same_name_overflow sample_ident_ok overflow_face (doc_link sample_input)
             (font_name sample_input) (lit "basic") (lit "star")); [reflexivity|..].
  - reflexivity.
  - rewrite shaping_of_basic. eexists. reflexivity.
  - intros c Hc. apply overflow_face_candidate, overflow_face_codepoints, Hc.
  - intros a Ha. discriminate Ha.
  - cbn [init_state duplicates]. rewrite lookup_empty. cbn [default id].
    rewrite length_concat_repeat. unfold pua_block. rewrite length_map, length_seq.
    unfold u32_limit, overflow_groups. lia.
Qed.

(** C1 (amended): a glyph whose canonical name is already in the registry
    produces no fragment; while the name's [u32] counter is below [u32::MAX]
    there is no error and the counter is incremented, and at [u32::MAX] the
    increment panics with overflow checks and wraps to 0 without them.  Over
    a whole pass, the fragments are the first candidate of each canonical name
    in enumeration order, the registry holds the number of candidates of each
    name modulo 2^32, and with overflow checks a successful pass has fewer
    than 2^32 candidates of every name. *)
Theorem first_wins_dedup (ident_ok : str -> bool) (overflow_checks : bool) (face : Face)
    (doc_link : option str) (font_name shaping : str) :
  (forall (st : LoopState) (c : char) (g : N) (p : str) (a : N),
     glyph_index face c = Some g -> sanitize (raw_name_of face g) = Some p ->
     duplicates st !! p = Some a -> (a + 1 < u32_limit)%N ->
     step ident_ok overflow_checks face doc_link font_name shaping st c =
     Ok {| functions := functions st; advanced_functions := advanced_functions st;
           duplicates := <[p := (a + 1)%N]> (duplicates st); count := count st |}) /\
  (forall (st : LoopState) (c : char) (g : N) (p : str),
     glyph_index face c = Some g -> sanitize (raw_name_of face g) = Some p ->
     duplicates st !! p = Some (u32_limit - 1)%N ->
     step ident_ok overflow_checks face doc_link font_name shaping st c =
     if overflow_checks then Err AddOverflow else
     Ok {| functions := functions st; advanced_functions := advanced_functions st;
           duplicates := <[p := 0%N]> (duplicates st); count := count st |}) /\
  (forall (cs : list char) (st : LoopState),
     run_loop ident_ok overflow_checks face doc_link font_name shaping init_state cs = Ok st ->
     map w_key (functions st) = first_wins [] (candidates face cs) /\
     (forall p, duplicates st !! p = add_claims None (occurrences p (candidates face cs))) /\
     (overflow_checks = true ->
        forall p, (N.of_nat (occurrences p (candidates face cs)) < u32_limit)%N)).
Proof.
  split; [|split].
  - intros st c g p a Hg Hs Hd Hlt.
    pose proof (step_cases ident_ok overflow_checks face doc_link font_name shaping st c) as H.
    unfold candidate in H. rewrite Hg, Hs in H. destruct H as [_ H].
    rewrite Hd in H. destruct H as [(_ & Hge & _)|(_ & H)]; [lia|].
    rewrite H, N.mod_small by exact Hlt. reflexivity.
  - intros st c g p Hg Hs Hd.
    pose proof (step_cases ident_ok overflow_checks face doc_link font_name shaping st c) as H.
    unfold candidate in H. rewrite Hg, Hs in H. destruct H as [_ H].
    rewrite Hd in H. destruct H as [(-> & _ & H)|([Ho|Hlt] & H)].
    + exact H.
    + rewrite H, Ho. replace (u32_limit - 1 + 1)%N with u32_limit by (unfold u32_limit; lia).
      rewrite N.Div0.mod_same. reflexivity.
    + unfold u32_limit in Hlt. lia.
  - intros cs st Hrun.
    destruct (run_loop_init ident_ok overflow_checks face doc_link font_name shaping cs st Hrun)
      as (H1 & _ & _ & H4).
    split; [exact H1|]. split; [exact H4|].
    intros Ho p.
    pose proof (run_loop_claims_bound ident_ok overflow_checks face doc_link font_name shaping
                  cs init_state st Ho Hrun p) as Hb.
    cbn [init_state duplicates] in Hb. rewrite lookup_empty in Hb. cbn [default id] in Hb.
    apply Hb. intros a Ha. discriminate Ha.
Qed.

Lemma first_wins_dedup_witness :
  run_loop sample_ident_ok true sample_face None (lit "SAMPLE_FONT") (lit "basic")
    init_state sample_codepoints = Ok sample_loop_state /\
  (map w_key (functions sample_loop_state) =
     first_wins [] (candidates sample_face sample_codepoints) /\
   (forall p, duplicates sample_loop_state !! p =
     add_claims None (occurrences p (candidates sample_face sample_codepoints))) /\
   (true = true -> forall p,
     (N.of_nat (occurrences p (candidates sample_face sample_codepoints)) < u32_limit)%N)) /\
  map w_name (functions sample_loop_state) =
    [lit "heart"; lit "heart_fill"; lit "one"; lit "unnamed"; lit "star"] /\
  duplicates sample_loop_state !! lit "star" = Some 2%N /\
  step sample_ident_ok true sample_face None (lit "SAMPLE_FONT") (lit "basic") full_state 57349
    = Err AddOverflow /\
  step sample_ident_ok true sample_face None (lit "SAMPLE_FONT") (lit "basic") sample_loop_state
    57349 = Ok {| functions := functions sample_loop_state;
                  advanced_functions := advanced_functions sample_loop_state;
                  duplicates := <[lit "star" := 3%N]> (duplicates sample_loop_state);
                  count := count sample_loop_state |}.
Proof.
  assert (E : run_loop sample_ident_ok true sample_face None (lit "SAMPLE_FONT") (lit "basic")
                init_state sample_codepoints = Ok sample_loop_state)
    by (vm_compute; reflexivity).
  destruct (first_wins_dedup sample_ident_ok true sample_face None (lit "SAMPLE_FONT")
              (lit "basic")) as (P1 & P2 & P3).
  split; [exact E|].
  split; [exact (P3 _ _ E)|].
  split; [vm_compute; reflexivity|].
  split; [vm_compute; reflexivity|].
  split.
  - exact (P2 full_state 57349%N 6%N (lit "star") eq_refl ltac:(vm_compute; reflexivity)
             ltac:(vm_compute; reflexivity)).
  - exact (P1 sample_loop_state 57349%N 6%N (lit "star") 2%N eq_refl ltac:(vm_compute; reflexivity)
             ltac:(vm_compute; reflexivity) ltac:(vm_compute; reflexivity)).
Defined.

(** ** Properties of first-wins deduplication *)

Lemma first_wins_names (l : list (char * str)) :
  forall seen : list str,
  NoDup (map snd (first_wins seen l)) /\
  (forall p, p ∈ map snd (first_wins seen l) <-> p ∈ map snd l /\ p ∉ seen).
Proof.
  induction l as [|[c p] l IH]; intros seen; simpl.
  - split; [constructor|]. intros q. split; [intros Hq; apply elem_of_nil in Hq; done|].
    intros [Hq _]. apply elem_of_nil in Hq. done.
  - case_decide as Hin.
    + destruct (IH seen) as [Hnd Hset]. split; [exact Hnd|].
      intros q. rewrite Hset, elem_of_cons. split; [intros [? ?]; auto|].
      intros [[->|?] ?]; [contradiction|auto].
    + destruct (IH (p :: seen)) as [Hnd Hset]. split.
      * simpl. constructor; [|exact Hnd].
        try rewrite <- list_elem_of_In. rewrite Hset. intros [_ Hp]. apply Hp, elem_of_cons. auto.
      * intros q. simpl. rewrite !elem_of_cons, Hset, elem_of_cons.
        split.
        -- intros [->|[? Hq]]; [auto|]. split; [auto|]. intros ?. apply Hq. auto.
        -- intros [[->|?] Hq]; [auto|]. destruct (decide (q = p)) as [->|Hne]; [auto|].
           right. split; [auto|]. intros [?|?]; auto.
Qed.

Lemma first_wins_sublist (l : list (char * str)) :
  forall seen : list str, map fst (first_wins seen l) `sublist_of` map fst l.
Proof.
  induction l as [|[c p] l IH]; intros seen; simpl; [constructor|].
  case_decide.
  - apply sublist_cons, IH.
  - apply sublist_skip, IH.
Qed.

Lemma candidate_fst (face : Face) (c c' : char) (p : str) :
  candidate face c = Some (c', p) -> c' = c.
Proof.
  unfold candidate. destruct (glyph_index face c); [|discriminate].
  destruct (sanitize _); [|discriminate]. congruence.
Qed.

Lemma candidates_sublist (face : Face) (cs : list char) :
  map fst (candidates face cs) `sublist_of` cs.
Proof.
  induction cs as [|c cs IH]; [constructor|].
  rewrite candidates_cons. destruct (candidate face c) as [[c' p]|] eqn:E.
  - apply candidate_fst in E as ->. simpl. apply sublist_skip, IH.
  - apply sublist_cons, IH.
Qed.

Lemma NoDup_filter_name (l : list WidgetFn) (v : str) :
  NoDup (map w_name l) -> length (filter (fun w => w_name w = v) l) <= 1.
Proof.
  induction l as [|w l IH]; intros Hnd; simpl; [lia|].
  inversion Hnd as [|? ? Hnot Hnd']; subst.
  rewrite filter_cons. case_decide as Hw; simpl; [|auto].
  destruct (filter (fun w => w_name w = v) l) as [|w' rest] eqn:E; simpl; [lia|].
  exfalso. assert (Hw' : w' ∈ filter (fun w => w_name w = v) l) by (rewrite E; left).
  apply list_elem_of_filter in Hw' as [Hv Hin].
  apply Hnot. rewrite Hw, <- Hv. apply list_elem_of_In, in_map, list_elem_of_In, Hin.
Qed.

(** [body] succeeds only through a loop run on the font's codepoints. *)
Lemma body_ok_inv (ident_ok : str -> bool) (overflow_checks : bool) fs face_parse (feature_advanced_text : bool)
    (input : Input) (shaping : str) (m : OutputModule) :
  body ident_ok overflow_checks fs face_parse feature_advanced_text input shaping = Ok m ->
  exists bytes face cps st,
    fs (font_path input) = Some bytes /\ face_parse bytes = Some face /\
    all_codepoints face = Ok cps /\
    run_loop ident_ok overflow_checks face (doc_link input) (font_name input) shaping init_state cps = Ok st /\
    COUNT m = count st /\ mod_functions m = functions st /\
    advanced_text m = (if feature_advanced_text then Some (advanced_functions st) else None).
Proof.
  unfold body.
  destruct (fs (font_path input)) as [bytes|] eqn:E1; [|discriminate].
  destruct (face_parse bytes) as [face|] eqn:E2; [|discriminate].
  destruct (all_codepoints face) as [cps|] eqn:E3; [|discriminate].
  destruct (run_loop _ _ _ _ _ _ _ _) as [st|] eqn:E; [|discriminate].
  intros Hm. injection Hm as <-. exists bytes, face, cps, st. repeat split; auto.
Qed.

(** What a successful pass emits, in terms of the font's candidates. *)
Lemma body_fragments (ident_ok : str -> bool) (overflow_checks : bool) fs face_parse (feature_advanced_text : bool)
    (input : Input) (shaping : str) (bytes : list Byte.byte) (face : Face) (cps : list char)
    (m : OutputModule) :
  fs (font_path input) = Some bytes -> face_parse bytes = Some face ->
  all_codepoints face = Ok cps ->
  body ident_ok overflow_checks fs face_parse feature_advanced_text input shaping = Ok m ->
  map w_key (mod_functions m) = first_wins [] (candidates face cps) /\
  COUNT m = length (mod_functions m) /\
  (forall rs, advanced_text m = Some rs -> map r_key rs = map w_key (mod_functions m)).
Proof.
  intros Hfs Hp Hc Hb.
  destruct (body_ok_inv ident_ok overflow_checks fs face_parse feature_advanced_text input shaping m Hb)
    as (bytes' & face' & cps' & st & Hfs' & Hp' & Hc' & Hrun & Hcount & Hfun & Hadv).
  rewrite Hfs in Hfs'. injection Hfs' as <-.
  rewrite Hp in Hp'. injection Hp' as <-.
  rewrite Hc in Hc'. injection Hc' as <-.
  destruct (run_loop_init ident_ok overflow_checks face (doc_link input) (font_name input) shaping cps st Hrun)
    as (H1 & H2 & H3 & _).
  rewrite Hfun. split; [exact H1|]. split.
  - rewrite Hcount, H3, <- H1, length_map. reflexivity.
  - intros rs Hrs. rewrite Hadv in Hrs.
    destruct feature_advanced_text; [|discriminate]. injection Hrs as <-.
    rewrite H1, H2. reflexivity.
Qed.

Lemma map_w_name (l : list WidgetFn) : map w_name l = map snd (map w_key l).
Proof. rewrite map_map. reflexivity. Qed.

Lemma map_w_char (l : list WidgetFn) : map w_char l = map fst (map w_key l).
Proof. rewrite map_map. reflexivity. Qed.

Lemma map_r_char (l : list RawFn) : map r_char l = map fst (map r_key l).
Proof. rewrite map_map. reflexivity. Qed.

(** ** C7: the COUNT constant *)

(** C7: the emitted COUNT equals the number of widget fragments (and of raw
    fragments when the advanced_text sub-module is emitted); the fragment
    names are pairwise distinct and are exactly the surviving canonical
    names, so COUNT is the number of distinct surviving identifiers. *)
Theorem count_matches_fragments (ident_ok : str -> bool) (overflow_checks : bool) fs face_parse
    (feature_advanced_text : bool) (input : Input) (shaping : str)
    (bytes : list Byte.byte) (face : Face) (cps : list char) (m : OutputModule) :
  fs (font_path input) = Some bytes -> face_parse bytes = Some face ->
  all_codepoints face = Ok cps ->
  body ident_ok overflow_checks fs face_parse feature_advanced_text input shaping = Ok m ->
  COUNT m = length (mod_functions m) /\
  (forall rs, advanced_text m = Some rs -> length rs = COUNT m) /\
  NoDup (map w_name (mod_functions m)) /\
  (forall p, p ∈ map w_name (mod_functions m) <-> p ∈ map snd (candidates face cps)).
Proof.
  intros Hfs Hp Hc Hb.
  destruct (body_fragments ident_ok overflow_checks fs face_parse feature_advanced_text input shaping
              bytes face cps m Hfs Hp Hc Hb) as (H1 & H2 & H3).
  destruct (first_wins_names (candidates face cps) []) as [Hnd Hset].
  split; [exact H2|]. split.
  - intros rs Hrs. rewrite H2, <- (length_map r_key), H3 by exact Hrs.
    rewrite length_map. reflexivity.
  - rewrite map_w_name, H1. split; [exact Hnd|].
    intros p. rewrite Hset. split; [intros [? _]; assumption|].
    intros Hp'. split; [exact Hp'|]. intros Hn. apply elem_of_nil in Hn. exact Hn.
Qed.

Lemma count_matches_fragments_witness :
  COUNT sample_module = length (mod_functions sample_module) /\
  (forall rs, advanced_text sample_module = Some rs -> length rs = COUNT sample_module) /\
  NoDup (map w_name (mod_functions sample_module)) /\
  (forall p, p ∈ map w_name (mod_functions sample_module) <->
             p ∈ map snd (candidates sample_face sample_codepoints)).
Proof.
  exact (count_matches_fragments sample_ident_ok true sample_fs (fun _ => Some sample_face) true
           sample_input (lit "basic") [Byte.x00; Byte.x01] sample_face sample_codepoints
           sample_module eq_refl eq_refl eq_refl ltac:(vm_compute; reflexivity)).
Defined.

(** ** C8: enumeration order *)

(** C8: the widget fragments (and the raw fragments) follow the enumeration
    order of the Unicode subtable: their codepoints are the first-wins
    subsequence of the surviving candidates, a sublist of the codepoints. *)
Theorem fragments_in_enumeration_order (ident_ok : str -> bool) (overflow_checks : bool) fs face_parse
    (feature_advanced_text : bool) (input : Input) (shaping : str)
    (bytes : list Byte.byte) (face : Face) (cps : list char) (m : OutputModule) :
  fs (font_path input) = Some bytes -> face_parse bytes = Some face ->
  all_codepoints face = Ok cps ->
  body ident_ok overflow_checks fs face_parse feature_advanced_text input shaping = Ok m ->
  map w_char (mod_functions m) = map fst (first_wins [] (candidates face cps)) /\
  map w_char (mod_functions m) `sublist_of` cps /\
  (forall rs, advanced_text m = Some rs -> map r_char rs = map w_char (mod_functions m)).
Proof.
  intros Hfs Hp Hc Hb.
  destruct (body_fragments ident_ok overflow_checks fs face_parse feature_advanced_text input shaping
              bytes face cps m Hfs Hp Hc Hb) as (H1 & _ & H3).
  rewrite map_w_char, H1. split; [reflexivity|]. split.
  - etrans; [apply first_wins_sublist|apply candidates_sublist].
  - intros rs Hrs. rewrite map_r_char, (H3 rs Hrs), H1. reflexivity.
Qed.

Lemma fragments_in_enumeration_order_witness :
  map w_char (mod_functions sample_module) =
    map fst (first_wins [] (candidates sample_face sample_codepoints)) /\
  map w_char (mod_functions sample_module) `sublist_of` sample_codepoints /\
  (forall rs, advanced_text sample_module = Some rs ->
              map r_char rs = map w_char (mod_functions sample_module)).
Proof.
  exact (fragments_in_enumeration_order sample_ident_ok true sample_fs (fun _ => Some sample_face)
           true sample_input (lit "basic") [Byte.x00; Byte.x01] sample_face sample_codepoints
           sample_module eq_refl eq_refl eq_refl ltac:(vm_compute; reflexivity)).
Defined.

(** ** C9: unnamed glyphs *)

(** C9: a glyph without a name is named "unnamed" (it stays a candidate
    rather than failing), and a successful pass emits at most one fragment
    named "unnamed". *)
Theorem unnamed_default_dedup :
  (forall (face : Face) (c : char) (g : N),
     glyph_index face c = Some g -> glyph_name face g = None ->
     raw_name_of face g = lit "unnamed" /\ candidate face c = Some (c, lit "unnamed")) /\
  (forall (ident_ok : str -> bool) (overflow_checks : bool) fs face_parse (feature_advanced_text : bool)
          (input : Input) (shaping : str) (m : OutputModule),
     body ident_ok overflow_checks fs face_parse feature_advanced_text input shaping = Ok m ->
     length (filter (fun w => w_name w = lit "unnamed") (mod_functions m)) <= 1).
Proof.
  split.
  - intros face c g Hg Hn. unfold raw_name_of. rewrite Hn. split; [reflexivity|].
    unfold candidate. rewrite Hg. unfold raw_name_of. rewrite Hn. reflexivity.
  - intros ident_ok overflow_checks fs face_parse feat input shaping m Hb.
    destruct (body_ok_inv ident_ok overflow_checks fs face_parse feat input shaping m Hb)
      as (bytes & face & cps & _ & Hfs & Hp & Hc & _).
    destruct (body_fragments ident_ok overflow_checks fs face_parse feat input shaping
                bytes face cps m Hfs Hp Hc Hb) as (H1 & _).
    apply NoDup_filter_name. rewrite map_w_name, H1.
    exact (proj1 (first_wins_names (candidates face cps) [])).
Qed.

Lemma unnamed_default_dedup_witness :
  (raw_name_of sample_face 4%N = lit "unnamed" /\
   candidate sample_face 57347%N = Some (57347%N, lit "unnamed")) /\
  length (filter (fun w => w_name w = lit "unnamed") (mod_functions sample_module)) <= 1.
Proof.
  split.
  - exact (proj1 unnamed_default_dedup sample_face 57347%N 4%N eq_refl eq_refl).
  - exact (proj2 unnamed_default_dedup sample_ident_ok true sample_fs (fun _ => Some sample_face)
             true sample_input (lit "basic") sample_module ltac:(vm_compute; reflexivity)).
Defined.

(** ** C10: the two entry points *)

Lemma step_reshape (ident_ok : str -> bool) (overflow_checks : bool) (face : Face) (doc_link : option str)
    (font_name : str) (st : LoopState) (c : char) :
  step ident_ok overflow_checks face doc_link font_name (lit "advanced") (reshape_state Advanced st) c =
  result_map (reshape_state Advanced) (step ident_ok overflow_checks face doc_link font_name (lit "basic") st c).
Proof.
  unfold step. destruct (glyph_index face c) as [g|]; [|reflexivity].
  destruct (existsb is_illegal _); [reflexivity|].
  change (duplicates (reshape_state Advanced st)) with (duplicates st).
  destruct (duplicates st !! _); [destruct (_ && _); reflexivity|].
  destruct (ident_ok _); [|reflexivity].
  rewrite shaping_of_basic, shaping_of_advanced. simpl.
  unfold reshape_state. simpl. rewrite !map_app. reflexivity.
Qed.

Lemma run_loop_reshape (ident_ok : str -> bool) (overflow_checks : bool) (face : Face) (doc_link : option str)
    (font_name : str) (cs : list char) :
  forall st : LoopState,
  run_loop ident_ok overflow_checks face doc_link font_name (lit "advanced") (reshape_state Advanced st) cs =
  result_map (reshape_state Advanced) (run_loop ident_ok overflow_checks face doc_link font_name (lit "basic") st cs).
Proof.
  induction cs as [|c cs IH]; intros st; [reflexivity|].
  cbn [run_loop]. rewrite step_reshape.
  destruct (step ident_ok overflow_checks face doc_link font_name (lit "basic") st c);
    cbn [result_map]; [apply IH|reflexivity].
Qed.

Lemma run_loop_shaping (ident_ok : str -> bool) (overflow_checks : bool) (face : Face) (doc_link : option str)
    (font_name shaping : str) (sh : Shaping) (cs : list char) :
  shaping_of shaping = Some sh ->
  forall st st' : LoopState,
  Forall (fun w => w_shaping w = sh) (functions st) ->
  Forall (fun r => r_shaping r = sh) (advanced_functions st) ->
  run_loop ident_ok overflow_checks face doc_link font_name shaping st cs = Ok st' ->
  Forall (fun w => w_shaping w = sh) (functions st') /\
  Forall (fun r => r_shaping r = sh) (advanced_functions st').
Proof.
  intros Hsh. induction cs as [|c cs IH]; intros st st' Hw Hr Hrun.
  - injection Hrun as <-. auto.
  - simpl in Hrun. unfold step in Hrun.
    destruct (glyph_index face c) as [g|]; [|exact (IH _ _ Hw Hr Hrun)].
    destruct (existsb is_illegal _); [exact (IH _ _ Hw Hr Hrun)|].
    destruct (duplicates st !! _);
      [destruct (_ && _); [discriminate|eapply IH; [| |exact Hrun]; assumption]|].
    destruct (ident_ok _); [|discriminate].
    rewrite Hsh in Hrun. simpl in Hrun.
    eapply IH; [| |exact Hrun]; simpl; apply Forall_app; split; auto.
Qed.

(** C10: the advanced entry point produces exactly the basic entry point's
    output (or the same panic) with every fragment's shaping mode set to
    Advanced, the basic one's fragments all carry Basic, and the
    advanced_text sub-module is emitted exactly when the macro crate's
    advanced_text feature is on, whichever entry point runs. *)
Theorem entry_points_differ_in_shaping (ident_ok : str -> bool) (overflow_checks : bool) fs face_parse
    (feature_advanced_text : bool) (input : Input) :
  generate_icon_advanced_functions ident_ok overflow_checks fs face_parse feature_advanced_text input =
    result_map (reshape_module Advanced)
      (generate_icon_functions ident_ok overflow_checks fs face_parse feature_advanced_text input) /\
  (forall m, generate_icon_functions ident_ok overflow_checks fs face_parse feature_advanced_text input = Ok m ->
     Forall (fun w => w_shaping w = Basic) (mod_functions m) /\
     forall rs, advanced_text m = Some rs -> Forall (fun r => r_shaping r = Basic) rs) /\
  (forall m,
     generate_icon_functions ident_ok overflow_checks fs face_parse feature_advanced_text input = Ok m \/
     generate_icon_advanced_functions ident_ok overflow_checks fs face_parse feature_advanced_text input = Ok m ->
     is_Some (advanced_text m) <-> feature_advanced_text = true).
Proof.
  assert (Hpres : forall shaping m,
            body ident_ok overflow_checks fs face_parse feature_advanced_text input shaping = Ok m ->
            is_Some (advanced_text m) <-> feature_advanced_text = true).
  { intros shaping m Hb.
    destruct (body_ok_inv ident_ok overflow_checks fs face_parse feature_advanced_text input shaping m Hb)
      as (bytes & face & cps & st & _ & _ & _ & _ & _ & _ & Hadv).
    rewrite Hadv. destruct feature_advanced_text; split; auto.
    - intros [? ?]; discriminate.
    - discriminate. }
  split; [|split].
  - unfold generate_icon_advanced_functions, generate_icon_functions, body.
    destruct (fs (font_path input)) as [bytes|]; [|reflexivity].
    destruct (face_parse bytes) as [face|]; [|reflexivity].
    destruct (all_codepoints face) as [cps|]; [|reflexivity].
    change init_state with (reshape_state Advanced init_state) at 1.
    rewrite run_loop_reshape.
    destruct (run_loop _ _ _ _ _ (lit "basic") _ _) as [st|]; [|reflexivity].
    simpl. destruct feature_advanced_text; reflexivity.
  - intros m Hb.
    destruct (body_ok_inv ident_ok overflow_checks fs face_parse feature_advanced_text input _ m Hb)
      as (_ & face & cps & st & _ & _ & _ & Hrun & _ & Hfun & Hadv).
    destruct (run_loop_shaping ident_ok overflow_checks face (doc_link input) (font_name input) (lit "basic")
                Basic cps shaping_of_basic init_state st (Forall_nil_2 _) (Forall_nil_2 _) Hrun)
      as [Hw Hr].
    rewrite Hfun. split; [exact Hw|].
    intros rs Hrs. rewrite Hadv in Hrs. destruct feature_advanced_text; [|discriminate].
    injection Hrs as <-. exact Hr.
  - intros m [Hb|Hb]; exact (Hpres _ m Hb).
Qed.

Lemma entry_points_differ_in_shaping_witness :
  generate_icon_advanced_functions sample_ident_ok true sample_fs (fun _ => Some sample_face) true
    sample_input = Ok (reshape_module Advanced sample_module) /\
  Forall (fun w => w_shaping w = Basic) (mod_functions sample_module) /\
  (is_Some (advanced_text sample_module) <-> true = true).
Proof.
  destruct (entry_points_differ_in_shaping sample_ident_ok true sample_fs (fun _ => Some sample_face)
              true sample_input) as (H1 & H2 & H3).
  assert (E : generate_icon_functions sample_ident_ok true sample_fs (fun _ => Some sample_face) true
                sample_input = Ok sample_module) by (vm_compute; reflexivity).
  split; [rewrite H1, E; reflexivity|].
  split; [exact (proj1 (H2 _ E))|].
  exact (H3 _ (or_introl E)).
Defined.

(** ** C2: fatal failures *)

(** C2 (counterexample): a font whose cmap has no Unicode subtable is not a
    failure: the pass emits a module with COUNT 0 and no fragments. *)
Lemma no_unicode_subtable_succeeds :
  match body sample_ident_ok true sample_fs (fun _ => Some no_unicode_face) false sample_input
          (lit "basic") with
  | Ok m => COUNT m = 0 /\ mod_functions m = []
  | Err _ => False
  end.
Proof. vm_compute. split; reflexivity. Qed.

(** C2 (amended): the pass panics, with no module, when the font file cannot
    be read, when the bytes do not parse as a font, or when the font has no
    cmap table at all; a cmap without a Unicode subtable is no failure: the
    module is emitted with COUNT 0 and no fragments. *)
Theorem body_fatal_errors (ident_ok : str -> bool) (overflow_checks : bool) fs face_parse
    (feature_advanced_text : bool) (input : Input) (shaping : str) :
  (fs (font_path input) = None ->
     body ident_ok overflow_checks fs face_parse feature_advanced_text input shaping = Err FailedToReadFontFile) /\
  (forall bytes, fs (font_path input) = Some bytes -> face_parse bytes = None ->
     body ident_ok overflow_checks fs face_parse feature_advanced_text input shaping = Err FailedToParseFont) /\
  (forall bytes face, fs (font_path input) = Some bytes -> face_parse bytes = Some face ->
     cmap face = None ->
     body ident_ok overflow_checks fs face_parse feature_advanced_text input shaping = Err CmapUnwrap) /\
  (forall bytes face subtables, fs (font_path input) = Some bytes ->
     face_parse bytes = Some face -> cmap face = Some subtables ->
     Forall (fun s => is_unicode s = false) subtables ->
     exists m, body ident_ok overflow_checks fs face_parse feature_advanced_text input shaping = Ok m /\
               COUNT m = 0 /\ mod_functions m = []).
Proof.
  unfold body. split; [|split; [|split]].
  - intros ->. reflexivity.
  - intros bytes -> ->. reflexivity.
  - intros bytes face -> -> Hc. unfold all_codepoints. rewrite Hc. reflexivity.
  - intros bytes face subtables -> -> Hc Hu.
    assert (Hf : find is_unicode subtables = None).
    { clear Hc. induction Hu as [|s subtables Hs _ IH]; [reflexivity|].
      simpl. rewrite Hs. exact IH. }
    unfold all_codepoints. rewrite Hc, Hf. simpl.
    eexists. split; [reflexivity|]. split; reflexivity.
Qed.

Lemma body_fatal_errors_witness :
  body sample_ident_ok true sample_fs (fun _ => Some sample_face) false
    {| font_path := lit "fonts/missing.ttf"; module_name := lit "sample";
       font_name := lit "SAMPLE_FONT"; doc_link := None |} (lit "basic")
    = Err FailedToReadFontFile /\
  body sample_ident_ok true sample_fs (fun _ => None) false sample_input (lit "basic")
    = Err FailedToParseFont /\
  body sample_ident_ok true sample_fs (fun _ => Some no_cmap_face) false sample_input (lit "basic")
    = Err CmapUnwrap /\
  (exists m, body sample_ident_ok true sample_fs (fun _ => Some no_unicode_face) false sample_input
               (lit "basic") = Ok m /\ COUNT m = 0 /\ mod_functions m = []).
Proof.
  split; [|split; [|split]].
  - apply (proj1 (body_fatal_errors sample_ident_ok true sample_fs (fun _ => Some sample_face) false
             {| font_path := lit "fonts/missing.ttf"; module_name := lit "sample";
                font_name := lit "SAMPLE_FONT"; doc_link := None |} (lit "basic"))).
    vm_compute. reflexivity.
  - apply (proj1 (proj2 (body_fatal_errors sample_ident_ok true sample_fs (fun _ => None) false
             sample_input (lit "basic"))) [Byte.x00; Byte.x01]); reflexivity.
  - apply (proj1 (proj2 (proj2 (body_fatal_errors sample_ident_ok true sample_fs
             (fun _ => Some no_cmap_face) false sample_input (lit "basic"))))
             [Byte.x00; Byte.x01] no_cmap_face); reflexivity.
  - apply (proj2 (proj2 (proj2 (body_fatal_errors sample_ident_ok true sample_fs
             (fun _ => Some no_unicode_face) false sample_input (lit "basic"))))
             [Byte.x00; Byte.x01] no_unicode_face
             [{| is_unicode := false; codepoints := [57344; 57345]%N |}]).
    + vm_compute. reflexivity.
    + reflexivity.
    + reflexivity.
    + repeat constructor.
Defined.

(** ** Further properties of the generator *)

(** Every fragment pair a loop run appends comes from one codepoint of the
    run: a glyph whose renamed name passed the illegal-character scan and
    [Ident::new_raw], rendered with the pass's font and shaping. *)
Lemma run_loop_appends (ident_ok : str -> bool) (overflow_checks : bool) (face : Face) (doc_link : option str)
    (font_name shaping : str) (cs : list char) :
  forall st st' : LoopState,
  run_loop ident_ok overflow_checks face doc_link font_name shaping st cs = Ok st' ->
  exists ws rs,
    functions st' = functions st ++ ws /\
    advanced_functions st' = advanced_functions st ++ rs /\
    Forall2 (fun w r => exists c g sh,
        In c cs /\ glyph_index face c = Some g /\ shaping_of shaping = Some sh /\
        existsb is_illegal (rename (raw_name_of face g)) = false /\
        ident_ok (rename (raw_name_of face g)) = true /\
        w = {| w_name := rename (raw_name_of face g);
               w_doc := widget_doc doc_link c (rename (raw_name_of face g)) (raw_name_of face g);
               w_char := c; w_font := font_name; w_shaping := sh |} /\
        r = {| r_name := rename (raw_name_of face g);
               r_doc := raw_doc (rename (raw_name_of face g));
               r_char := c; r_font := font_name; r_shaping := sh |}) ws rs.
Proof.
  induction cs as [|c cs IH]; intros st st' Hrun.
  - injection Hrun as <-. exists [], []. rewrite !app_nil_r. auto.
  - cbn [run_loop] in Hrun.
    assert (Hweak : forall ws rs, Forall2 (fun w r => exists c0 g sh,
        In c0 cs /\ glyph_index face c0 = Some g /\ shaping_of shaping = Some sh /\
        existsb is_illegal (rename (raw_name_of face g)) = false /\
        ident_ok (rename (raw_name_of face g)) = true /\
        w = {| w_name := rename (raw_name_of face g);
               w_doc := widget_doc doc_link c0 (rename (raw_name_of face g)) (raw_name_of face g);
               w_char := c0; w_font := font_name; w_shaping := sh |} /\
        r = {| r_name := rename (raw_name_of face g);
               r_doc := raw_doc (rename (raw_name_of face g));
               r_char := c0; r_font := font_name; r_shaping := sh |}) ws rs ->
      Forall2 (fun w r => exists c0 g sh,
        In c0 (c :: cs) /\ glyph_index face c0 = Some g /\ shaping_of shaping = Some sh /\
        existsb is_illegal (rename (raw_name_of face g)) = false /\
        ident_ok (rename (raw_name_of face g)) = true /\
        w = {| w_name := rename (raw_name_of face g);
               w_doc := widget_doc doc_link c0 (rename (raw_name_of face g)) (raw_name_of face g);
               w_char := c0; w_font := font_name; w_shaping := sh |} /\
        r = {| r_name := rename (raw_name_of face g);
               r_doc := raw_doc (rename (raw_name_of face g));
               r_char := c0; r_font := font_name; r_shaping := sh |}) ws rs).
    { intros ws rs H. eapply Forall2_impl; [exact H|].
      intros w r (c0 & g & sh & Hin & Hrest). exists c0, g, sh. split; [right; exact Hin|exact Hrest]. }
    unfold step in Hrun.
    destruct (glyph_index face c) as [g|] eqn:Eg;
      [|destruct (IH _ _ Hrun) as (ws & rs & H1 & H2 & H3); exists ws, rs; auto].
    destruct (existsb is_illegal (rename (raw_name_of face g))) eqn:Ei;
      [destruct (IH _ _ Hrun) as (ws & rs & H1 & H2 & H3); exists ws, rs; auto|].
    destruct (duplicates st !! _) eqn:Ed;
      [destruct (_ && _); [discriminate|];
       destruct (IH _ _ Hrun) as (ws & rs & H1 & H2 & H3); exists ws, rs; auto|].
    destruct (ident_ok (rename (raw_name_of face g))) eqn:Eo; [|discriminate].
    destruct (shaping_of shaping) as [sh|] eqn:Es; [|discriminate].
    cbn [negb] in Hrun.
    destruct (IH _ _ Hrun) as (ws & rs & H1 & H2 & H3). cbn [functions advanced_functions] in H1, H2.
    eexists (_ :: ws), (_ :: rs).
    rewrite H1, H2, <- !app_assoc. split; [reflexivity|]. split; [reflexivity|].
    constructor; [|exact (Hweak _ _ H3)].
    exists c, g, sh. split; [left; reflexivity|]. auto 7.
Qed.

(** A successful pass emits exactly the fragment pairs its loop appended. *)
Lemma body_appends (ident_ok : str -> bool) (overflow_checks : bool) fs face_parse (feature_advanced_text : bool)
    (input : Input) (shaping : str) (m : OutputModule) :
  body ident_ok overflow_checks fs face_parse feature_advanced_text input shaping = Ok m ->
  exists bytes face cps rs,
    fs (font_path input) = Some bytes /\ face_parse bytes = Some face /\
    all_codepoints face = Ok cps /\
    advanced_text m = (if feature_advanced_text then Some rs else None) /\
    Forall2 (fun w r => exists c g sh,
        In c cps /\ glyph_index face c = Some g /\ shaping_of shaping = Some sh /\
        existsb is_illegal (rename (raw_name_of face g)) = false /\
        ident_ok (rename (raw_name_of face g)) = true /\
        w = {| w_name := rename (raw_name_of face g);
               w_doc := widget_doc (doc_link input) c (rename (raw_name_of face g))
                          (raw_name_of face g);
               w_char := c; w_font := font_name input; w_shaping := sh |} /\
        r = {| r_name := rename (raw_name_of face g);
               r_doc := raw_doc (rename (raw_name_of face g));
               r_char := c; r_font := font_name input; r_shaping := sh |})
      (mod_functions m) rs.
Proof.
  intros Hb.
  destruct (body_ok_inv ident_ok overflow_checks fs face_parse feature_advanced_text input shaping m Hb)
    as (bytes & face & cps & st & Hfs & Hp & Hc & Hrun & _ & Hfun & Hadv).
  destruct (run_loop_appends ident_ok overflow_checks face (doc_link input) (font_name input) shaping cps
              init_state st Hrun) as (ws & rs & H1 & H2 & H3).
  exists bytes, face, cps, rs. cbn in H1, H2.
  split; [exact Hfs|]. split; [exact Hp|]. split; [exact Hc|].
  rewrite Hadv, H2, Hfun, H1. split; [reflexivity|exact H3].
Qed.

Lemma first_wins_nil (l : list (char * str)) : first_wins [] l = [] -> l = [].
Proof.
  destruct l as [|[c p] l]; [reflexivity|]. cbn [first_wins].
  destruct (decide (p ∈ [])) as [Hn|_]; [apply elem_of_nil in Hn; contradiction|].
  discriminate.
Qed.

(** X2: every emitted widget function comes from a codepoint of the Unicode
    subtable that has a glyph; its name is the sanitized glyph name, its font
    is the macro's font argument and its doc comment is built from the
    codepoint, the name and the raw glyph name. *)
Theorem body_fragment_provenance (ident_ok : str -> bool) (overflow_checks : bool) fs face_parse
    (feature_advanced_text : bool) (input : Input) (shaping : str)
    (bytes : list Byte.byte) (face : Face) (cps : list char) (m : OutputModule) :
  fs (font_path input) = Some bytes -> face_parse bytes = Some face ->
  all_codepoints face = Ok cps ->
  body ident_ok overflow_checks fs face_parse feature_advanced_text input shaping = Ok m ->
  Forall (fun w => exists g,
      In (w_char w) cps /\ glyph_index face (w_char w) = Some g /\
      sanitize (raw_name_of face g) = Some (w_name w) /\
      w_font w = font_name input /\
      w_doc w = widget_doc (doc_link input) (w_char w) (w_name w) (raw_name_of face g))
    (mod_functions m).
Proof.
  intros Hfs Hp Hc Hb.
  destruct (body_appends ident_ok overflow_checks fs face_parse feature_advanced_text input shaping m Hb)
    as (bytes' & face' & cps' & rs & Hfs' & Hp' & Hc' & _ & H3).
  rewrite Hfs in Hfs'. injection Hfs' as <-.
  rewrite Hp in Hp'. injection Hp' as <-.
  rewrite Hc in Hc'. injection Hc' as <-.
  induction H3 as [|w r ws rs Hwr _ IH]; constructor; [|exact IH].
  destruct Hwr as (c & g & sh & Hin & Hg & _ & Hi & _ & -> & _).
  exists g. cbn. split; [exact Hin|]. split; [exact Hg|].
  split; [unfold sanitize; rewrite Hi; reflexivity|]. split; reflexivity.
Qed.

Lemma body_fragment_provenance_witness :
  Forall (fun w => exists g,
      In (w_char w) sample_codepoints /\ glyph_index sample_face (w_char w) = Some g /\
      sanitize (raw_name_of sample_face g) = Some (w_name w) /\
      w_font w = font_name sample_input /\
      w_doc w = widget_doc (doc_link sample_input) (w_char w) (w_name w)
                  (raw_name_of sample_face g))
    (mod_functions sample_module).
Proof.
  exact (body_fragment_provenance sample_ident_ok true sample_fs (fun _ => Some sample_face) true
           sample_input (lit "basic") [Byte.x00; Byte.x01] sample_face sample_codepoints
           sample_module eq_refl eq_refl eq_refl ltac:(vm_compute; reflexivity)).
Defined.

(** X3: the advanced_text sub-module, when emitted, has one raw function per
    widget function, in the same order, with the same name, character, font
    and shaping, and the raw doc comment of that name. *)
Theorem advanced_fragments_pair (ident_ok : str -> bool) (overflow_checks : bool) fs face_parse
    (feature_advanced_text : bool) (input : Input) (shaping : str) (m : OutputModule)
    (rs : list RawFn) :
  body ident_ok overflow_checks fs face_parse feature_advanced_text input shaping = Ok m ->
  advanced_text m = Some rs ->
  Forall2 (fun w r => r_name r = w_name w /\ r_char r = w_char w /\ r_font r = w_font w /\
                      r_shaping r = w_shaping w /\ r_doc r = raw_doc (w_name w))
    (mod_functions m) rs.
Proof.
  intros Hb Hrs.
  destruct (body_appends ident_ok overflow_checks fs face_parse feature_advanced_text input shaping m Hb)
    as (bytes & face & cps & rs' & _ & _ & _ & Hadv & H3).
  rewrite Hrs in Hadv. destruct feature_advanced_text; [|discriminate].
  injection Hadv as ->.
  eapply Forall2_impl; [exact H3|].
  intros w r (c & g & sh & _ & _ & _ & _ & _ & -> & ->). cbn. auto.
Qed.

Lemma advanced_fragments_pair_witness :
  Forall2 (fun w r => r_name r = w_name w /\ r_char r = w_char w /\ r_font r = w_font w /\
                      r_shaping r = w_shaping w /\ r_doc r = raw_doc (w_name w))
    (mod_functions sample_module) (default [] (advanced_text sample_module)).
Proof.
  exact (advanced_fragments_pair sample_ident_ok true sample_fs (fun _ => Some sample_face) true
           sample_input (lit "basic") sample_module (default [] (advanced_text sample_module))
           ltac:(vm_compute; reflexivity) ltac:(vm_compute; reflexivity)).
Defined.

(** X4: in a successful pass every candidate name, and so every emitted
    function name, is accepted by [Ident::new_raw]: a single surviving glyph
    whose canonical name it rejects aborts the whole pass. *)
Theorem body_names_accepted (ident_ok : str -> bool) (overflow_checks : bool) fs face_parse
    (feature_advanced_text : bool) (input : Input) (shaping : str)
    (bytes : list Byte.byte) (face : Face) (cps : list char) (m : OutputModule) :
  fs (font_path input) = Some bytes -> face_parse bytes = Some face ->
  all_codepoints face = Ok cps ->
  body ident_ok overflow_checks fs face_parse feature_advanced_text input shaping = Ok m ->
  Forall (fun w => ident_ok (w_name w) = true) (mod_functions m) /\
  Forall (fun x => ident_ok x.2 = true) (candidates face cps).
Proof.
  intros Hfs Hp Hc Hb.
  assert (Hw : Forall (fun w => ident_ok (w_name w) = true) (mod_functions m)).
  { destruct (body_appends ident_ok overflow_checks fs face_parse feature_advanced_text input shaping m Hb)
      as (bytes' & face' & cps' & rs & _ & _ & _ & _ & H3).
    clear - H3. induction H3 as [|w r ws rs Hwr _ IH]; constructor; [|exact IH].
    destruct Hwr as (c & g & sh & _ & _ & _ & _ & Ho & -> & _). exact Ho. }
  split; [exact Hw|].
  destruct (body_fragments ident_ok overflow_checks fs face_parse feature_advanced_text input shaping
              bytes face cps m Hfs Hp Hc Hb) as (H1 & _).
  destruct (first_wins_names (candidates face cps) []) as [_ Hset].
  apply Forall_forall. intros [c p] Hin.
  assert (Hp' : p ∈ map w_name (mod_functions m)).
  { rewrite map_w_name, H1, Hset. split.
    - apply list_elem_of_In. apply (in_map snd _ (c, p)). apply list_elem_of_In. exact Hin.
    - intros Hn. apply elem_of_nil in Hn. exact Hn. }
  apply list_elem_of_In, in_map_iff in Hp' as (w & <- & Hw').
  rewrite Forall_forall in Hw. apply Hw. apply list_elem_of_In. exact Hw'.
Qed.

Lemma body_names_accepted_witness :
  Forall (fun w => sample_ident_ok (w_name w) = true) (mod_functions sample_module) /\
  Forall (fun x => sample_ident_ok x.2 = true) (candidates sample_face sample_codepoints).
Proof.
  exact (body_names_accepted sample_ident_ok true sample_fs (fun _ => Some sample_face) true
           sample_input (lit "basic") [Byte.x00; Byte.x01] sample_face sample_codepoints
           sample_module eq_refl eq_refl eq_refl ltac:(vm_compute; reflexivity)).
Defined.

(** X5: the shaping argument is checked only when a glyph is emitted: with a
    shaping string other than "basic" and "advanced", a pass succeeds only
    when the font has no candidate glyph, and then emits COUNT 0. *)
Theorem invalid_shaping_only_empty (ident_ok : str -> bool) (overflow_checks : bool) fs face_parse
    (feature_advanced_text : bool) (input : Input) (shaping : str)
    (bytes : list Byte.byte) (face : Face) (cps : list char) (m : OutputModule) :
  shaping_of shaping = None ->
  fs (font_path input) = Some bytes -> face_parse bytes = Some face ->
  all_codepoints face = Ok cps ->
  body ident_ok overflow_checks fs face_parse feature_advanced_text input shaping = Ok m ->
  candidates face cps = [] /\ COUNT m = 0 /\ mod_functions m = [].
Proof.
  intros Hsh Hfs Hp Hc Hb.
  assert (Hnil : mod_functions m = []).
  { destruct (body_appends ident_ok overflow_checks fs face_parse feature_advanced_text input shaping m Hb)
      as (bytes' & face' & cps' & rs & _ & _ & _ & _ & H3).
    destruct H3 as [|w r ws rs Hwr _]; [reflexivity|].
    destruct Hwr as (c & g & sh & _ & _ & Hs & _). congruence. }
  destruct (body_fragments ident_ok overflow_checks fs face_parse feature_advanced_text input shaping
              bytes face cps m Hfs Hp Hc Hb) as (H1 & H2 & _).
  rewrite Hnil in H1, H2. split; [|split; [exact H2|exact Hnil]].
  apply first_wins_nil. symmetry. exact H1.
Qed.

Lemma invalid_shaping_only_empty_witness :
  candidates no_unicode_face [] = [] /\
  COUNT (default sample_module
           (match body sample_ident_ok true sample_fs (fun _ => Some no_unicode_face) false
                    sample_input (lit "fancy") with Ok m => Some m | Err _ => None end)) = 0 /\
  body sample_ident_ok true sample_fs (fun _ => Some sample_face) false sample_input (lit "fancy")
    = Err InvalidShaping.
Proof.
  assert (E : body sample_ident_ok true sample_fs (fun _ => Some no_unicode_face) false sample_input
                (lit "fancy") =
              Ok (default sample_module
                (match body sample_ident_ok true sample_fs (fun _ => Some no_unicode_face) false
                         sample_input (lit "fancy") with Ok m => Some m | Err _ => None end)))
    by (vm_compute; reflexivity).
  destruct (invalid_shaping_only_empty sample_ident_ok true sample_fs (fun _ => Some no_unicode_face)
              false sample_input (lit "fancy") [Byte.x00; Byte.x01] no_unicode_face []
              _ eq_refl eq_refl eq_refl eq_refl E) as (H1 & H2 & _).
  split; [exact H1|]. split; [exact H2|]. vm_compute. reflexivity.
Defined.




Lemma illegal_not_digit (c : char) : is_illegal c = true -> is_ascii_digit c = false.
Proof.
  unfold is_illegal. intros H. apply existsb_exists in H as [x [Hin Heq]].
  apply N.eqb_eq in Heq. subst x.
  vm_compute in Hin.
  repeat (destruct Hin as [<-|Hin]; [reflexivity|]).
  contradiction.
Qed.

(** The characters of a renamed name come from [subst_char] or "underscore". *)
Lemma rename_char (raw : str) (y : char) :
  In y (rename raw) ->
  y = 95%N \/ is_ascii_alphabetic y = true \/ (exists x, In x raw /\ In y (subst_char x)).
Proof.
  intros Hin. destruct (rename_cases raw) as [[E _]|[E _]]; rewrite E in Hin.
  - right; left. vm_compute in Hin.
    repeat (destruct Hin as [<-|Hin]; [reflexivity|]). contradiction.
  - apply in_flat_map in Hin as [x [Hx Hy]]. right; right. eauto.
Qed.

(** X9: a raw glyph name is rejected by the illegal-character scan exactly
    when it contains a disallowed character other than '-' (hyphens are
    turned into underscores before the scan); otherwise the sanitized name
    is the renamed one. *)
Theorem sanitize_rejects_iff (raw : str) :
  (sanitize raw = None <-> exists c, In c raw /\ is_illegal c = true /\ c <> 45%N) /\
  ((forall c, In c raw -> is_illegal c = false \/ c = 45%N) -> sanitize raw = Some (rename raw)).
Proof.
  assert (Hok : (forall c, In c raw -> is_illegal c = false \/ c = 45%N) ->
                existsb is_illegal (rename raw) = false).
  { intros Hall. apply not_true_iff_false. intros Hex.
    apply existsb_exists in Hex as [y [Hy Hi]].
    destruct (illegal_char_shape y Hi) as (_ & Ha & H95).
    destruct (rename_char raw y Hy) as [E95|[Ha'|(x & Hx & Hyx)]];
      [exact (H95 E95)|congruence|].
    destruct (subst_char_shape x y Hyx) as (_ & H45 & [Ex|[Ha'|E95]]);
      [|congruence|exact (H95 E95)].
    subst y. destruct (Hall x Hx); congruence. }
  split; [split|].
  - unfold sanitize. intros Hs.
    destruct (existsb is_illegal (rename raw)) eqn:Ei; [|discriminate].
    destruct (existsb (fun c => is_illegal c && negb (c =? 45)%N) raw) eqn:Ex.
    + apply existsb_exists in Ex as [c [Hc Hf]].
      apply andb_true_iff in Hf as [Hi Hne]. apply negb_true_iff, N.eqb_neq in Hne. eauto.
    + exfalso. enough (true = false) by discriminate.
      apply Hok. intros c Hc.
      pose proof (existsb_false_In _ _ c Ex Hc) as Hf. simpl in Hf.
      destruct (is_illegal c); [right|left; reflexivity].
      apply negb_false_iff, N.eqb_eq in Hf. exact Hf.
  - intros (c & Hc & Hi & Hne). unfold sanitize.
    replace (existsb is_illegal (rename raw)) with true; [reflexivity|].
    symmetry. apply existsb_exists. exists c. split; [|exact Hi].
    assert (Hcs : subst_char c = [c]) by (apply subst_char_plain; split; [exact Hne|apply illegal_not_digit, Hi]).
    destruct (rename_cases raw) as [[_ Hc_]|[E _]].
    + exfalso. rewrite replace_chain_flat_map in Hc_.
      assert (Hin : In c (flat_map subst_char raw)) by (apply in_flat_map; exists c; rewrite Hcs; auto using in_eq).
      rewrite Hc_ in Hin. destruct Hin as [<-|[]]. discriminate.
    + rewrite E. apply in_flat_map. exists c. rewrite Hcs. auto using in_eq.
  - intros Hall. unfold sanitize. rewrite (Hok Hall). reflexivity.
Qed.

Lemma sanitize_rejects_iff_witness :
  sanitize (lit "a+b") = None /\ sanitize (lit "a-b") = Some (rename (lit "a-b")).
Proof.
  destruct (sanitize_rejects_iff (lit "a+b")) as [[_ H1] _].
  destruct (sanitize_rejects_iff (lit "a-b")) as [_ H2].
  split.
  - apply H1. exists (ch "+"). vm_compute. split; [right; left; reflexivity|].
    split; [reflexivity|discriminate].
  - apply H2. intros c Hc. vm_compute in Hc.
    repeat (destruct Hc as [<-|Hc]; [first [left; reflexivity | right; reflexivity]|]).
    contradiction.
Defined.

(** X6: canonical names are fixed points of the sanitizer: sanitizing a name
    that survived sanitizing gives it back unchanged. *)
Theorem sanitize_idempotent (raw p : str) :
  sanitize raw = Some p -> sanitize p = Some p.
Proof.
  intros Hs. pose proof Hs as Hs'. unfold sanitize in Hs.
  destruct (existsb is_illegal (rename raw)) eqn:Ei; [discriminate|].
  injection Hs as <-.
  destruct (rename_cases raw) as [[E _]|[E Hne]]; rewrite E.
  - reflexivity.
  - assert (Hplain : Forall (fun c => c <> 45%N /\ is_ascii_digit c = false)
                       (flat_map subst_char raw)).
    { apply Forall_forall. intros y Hy. apply list_elem_of_In, in_flat_map in Hy as [x [_ Hx]].
      destruct (subst_char_shape x y Hx) as (Hd & H45 & _). auto. }
    unfold sanitize, rename. rewrite replace_chain_flat_map, (flat_map_subst_plain _ Hplain).
    rewrite <- replace_chain_flat_map. rewrite decide_False by exact Hne.
    rewrite replace_chain_flat_map. rewrite <- E, Ei. reflexivity.
Qed.

Lemma sanitize_idempotent_witness :
  sanitize (lit "underscore") = Some (lit "underscore") /\
  sanitize (lit "onefsixzerozero") = Some (lit "onefsixzerozero").
Proof.
  split.
  - apply (sanitize_idempotent (lit "_")). vm_compute. reflexivity.
  - apply (sanitize_idempotent (lit "1f600")). vm_compute. reflexivity.
Defined.

(** A codepoint that is not a candidate leaves the loop state unchanged. *)
Lemma step_non_candidate (ident_ok : str -> bool) (overflow_checks : bool) (face : Face) (doc_link : option str)
    (font_name shaping : str) (st : LoopState) (c : char) :
  candidate face c = None -> step ident_ok overflow_checks face doc_link font_name shaping st c = Ok st.
Proof.
  unfold candidate, step, sanitize.
  destruct (glyph_index face c) as [g|]; [|reflexivity].
  destruct (existsb is_illegal (rename (raw_name_of face g))); [reflexivity|discriminate].
Qed.

(** X8: codepoints without a glyph, or whose glyph name is rejected, are
    invisible to the pass: dropping them from the enumeration gives the same
    result, panics included. *)
Theorem run_loop_filter_candidates (ident_ok : str -> bool) (overflow_checks : bool) (face : Face)
    (doc_link : option str) (font_name shaping : str) (cs : list char) (st : LoopState) :
  run_loop ident_ok overflow_checks face doc_link font_name shaping st cs =
  run_loop ident_ok overflow_checks face doc_link font_name shaping st
    (filter (fun c => is_Some (candidate face c)) cs).
Proof.
  revert st. induction cs as [|c cs IH]; intros st; [reflexivity|].
  rewrite filter_cons. cbn [run_loop].
  case_decide as Hc.
  - cbn [run_loop]. destruct (step ident_ok overflow_checks face doc_link font_name shaping st c);
      [apply IH|reflexivity].
  - rewrite step_non_candidate; [apply IH|].
    destruct (candidate face c); [exfalso; apply Hc; eexists; reflexivity|reflexivity].
Qed.

Lemma run_loop_succeeds (ident_ok : str -> bool) (overflow_checks : bool) (face : Face) (doc_link : option str)
    (font_name shaping : str) (cs : list char) :
  forall st : LoopState,
  (candidates face cs <> [] -> is_Some (shaping_of shaping)) ->
  Forall (fun x => ident_ok x.2 = true) (candidates face cs) ->
  (overflow_checks = true -> forall p,
     (default 0 (duplicates st !! p) + N.of_nat (occurrences p (candidates face cs)) < u32_limit)%N) ->
  exists st', run_loop ident_ok overflow_checks face doc_link font_name shaping st cs = Ok st'.
Proof.
  induction cs as [|c cs IH]; intros st Hsh Hf Hb; [exists st; reflexivity|].
  rewrite candidates_cons in Hsh, Hf, Hb. cbn [run_loop]. unfold candidate, sanitize in Hsh, Hf, Hb.
  unfold step.
  destruct (glyph_index face c) as [g|]; [|apply IH; assumption].
  destruct (existsb is_illegal (rename (raw_name_of face g))); [apply IH; assumption|].
  inversion Hf as [|x l Ho Hf' Hx]; subst. cbn in Ho.
  destruct (Hsh ltac:(discriminate)) as [sh Es].
  set (P := rename (raw_name_of face g)) in *.
  destruct (duplicates st !! P) as [a|] eqn:Ea.
  - destruct (overflow_checks && (u32_limit <=? a + 1)%N) eqn:Eb.
    + exfalso. apply andb_true_iff in Eb as [Eo Hge]. apply N.leb_le in Hge.
      specialize (Hb Eo P). rewrite occurrences_cons, decide_True, Ea in Hb by reflexivity.
      cbn [default id] in Hb. lia.
    + apply IH; [rewrite Es; eauto|exact Hf'|].
      intros Eo p. specialize (Hb Eo p). rewrite Eo in Eb. cbn [andb] in Eb.
      apply N.leb_gt in Eb. cbn [duplicates]. rewrite occurrences_cons in Hb.
      destruct (decide (P = p)) as [<-|Hne].
      * rewrite lookup_insert_eq, N.mod_small by exact Eb. rewrite Ea in Hb.
        cbn [default id] in Hb |- *. lia.
      * rewrite lookup_insert_ne by exact Hne. rewrite Nat.add_0_l in Hb. exact Hb.
  - rewrite Ho, Es. cbn [negb]. apply IH; [rewrite Es; eauto|exact Hf'|].
    intros Eo p. specialize (Hb Eo p). cbn [duplicates]. rewrite occurrences_cons in Hb.
    destruct (decide (P = p)) as [<-|Hne].
    + rewrite lookup_insert_eq. rewrite Ea in Hb. cbn [default id] in Hb |- *. lia.
    + rewrite lookup_insert_ne by exact Hne. rewrite Nat.add_0_l in Hb. exact Hb.
Qed.

(** X10: a pass over a readable, parseable font with a cmap table succeeds
    whenever [Ident::new_raw] accepts every canonical name, the shaping is
    "basic" or "advanced" (or no glyph is emitted at all) and, when the macro
    is built with overflow checks, no canonical name is claimed by 2^32 or
    more emitted glyphs.  With X4, X5 and X11, these are exactly the
    conditions under which the pass succeeds. *)
Theorem body_succeeds (ident_ok : str -> bool) (overflow_checks : bool) fs face_parse
    (feature_advanced_text : bool) (input : Input) (shaping : str)
    (bytes : list Byte.byte) (face : Face) (cps : list char) :
  fs (font_path input) = Some bytes -> face_parse bytes = Some face ->
  all_codepoints face = Ok cps ->
  (candidates face cps <> [] -> is_Some (shaping_of shaping)) ->
  Forall (fun x => ident_ok x.2 = true) (candidates face cps) ->
  (overflow_checks = true -> forall p, (N.of_nat (occurrences p (candidates face cps)) < u32_limit)%N) ->
  exists m, body ident_ok overflow_checks fs face_parse feature_advanced_text input shaping = Ok m.
Proof.
  intros Hfs Hp Hc Hsh Hf Hb. unfold body. rewrite Hfs, Hp, Hc.
  assert (Hb' : overflow_checks = true -> forall p,
     (default 0 (duplicates init_state !! p) + N.of_nat (occurrences p (candidates face cps)) < u32_limit)%N).
  { intros Eo p. cbn [init_state duplicates]. rewrite lookup_empty. cbn [default id].
    rewrite N.add_0_l. exact (Hb Eo p). }
  destruct (run_loop_succeeds ident_ok overflow_checks face (doc_link input) (font_name input) shaping cps
              init_state Hsh Hf Hb') as [st ->].
  eexists. reflexivity.
Qed.

Lemma body_succeeds_witness :
  exists m, body sample_ident_ok true sample_fs (fun _ => Some sample_face) true sample_input
              (lit "advanced") = Ok m.
Proof.
  apply (body_succeeds sample_ident_ok true sample_fs (fun _ => Some sample_face) true sample_input
           (lit "advanced") [Byte.x00; Byte.x01] sample_face sample_codepoints).
  - reflexivity.
  - reflexivity.
  - reflexivity.
  - intros _. rewrite shaping_of_advanced. eexists. reflexivity.
  - vm_compute. repeat constructor.
  - intros _ p. unfold occurrences.
    pose proof (length_filter (fun x : char * str => x.2 = p)
                  (candidates sample_face sample_codepoints)) as Hl.
    assert (Hn : length (candidates sample_face sample_codepoints) <= 10)
      by (vm_compute; lia).
    unfold u32_limit. lia.
Defined.

Lemma run_loop_error (ident_ok : str -> bool) (overflow_checks : bool) (face : Face) (doc_link : option str)
    (font_name shaping : str) (cs : list char) :
  forall (st : LoopState) (e : Panic),
  run_loop ident_ok overflow_checks face doc_link font_name shaping st cs = Err e ->
  exists c p, In c cs /\ candidate face c = Some (c, p) /\
    ((ident_ok p = false /\ e = InvalidIdent p) \/
     (ident_ok p = true /\ shaping_of shaping = None /\ e = InvalidShaping) \/
     (overflow_checks = true /\ e = AddOverflow /\
      (u32_limit <= default 0 (duplicates st !! p) + N.of_nat (occurrences p (candidates face cs)))%N)).
Proof.
  induction cs as [|c cs IH]; intros st e Hrun; [discriminate|].
  cbn [run_loop] in Hrun.
  assert (Hlift : forall st',
    (forall q, default 0 (duplicates st' !! q) + N.of_nat (occurrences q (candidates face cs)) <=
               default 0 (duplicates st !! q) + N.of_nat (occurrences q (candidates face (c :: cs))))%N ->
    run_loop ident_ok overflow_checks face doc_link font_name shaping st' cs = Err e ->
    exists c0 p, In c0 (c :: cs) /\ candidate face c0 = Some (c0, p) /\
      ((ident_ok p = false /\ e = InvalidIdent p) \/
       (ident_ok p = true /\ shaping_of shaping = None /\ e = InvalidShaping) \/
       (overflow_checks = true /\ e = AddOverflow /\
        (u32_limit <= default 0 (duplicates st !! p) +
                      N.of_nat (occurrences p (candidates face (c :: cs))))%N))).
  { intros st' Hle Hr. destruct (IH _ _ Hr) as (c0 & p & Hin & Hc0 & Hcase).
    exists c0, p. split; [right; exact Hin|]. split; [exact Hc0|].
    destruct Hcase as [H1|[H2|(H3 & H4 & H5)]]; [left; exact H1|right; left; exact H2|].
    right; right. split; [exact H3|]. split; [exact H4|]. specialize (Hle p). lia. }
  unfold step in Hrun.
  destruct (glyph_index face c) as [g|] eqn:Eg.
  2: { assert (Hn : candidate face c = None) by (unfold candidate; rewrite Eg; reflexivity).
       apply (Hlift st); [|exact Hrun]. intros q. rewrite candidates_cons, Hn. lia. }
  destruct (existsb is_illegal (rename (raw_name_of face g))) eqn:Ei.
  { assert (Hn : candidate face c = None)
      by (unfold candidate, sanitize; rewrite Eg, Ei; reflexivity).
    apply (Hlift st); [|exact Hrun]. intros q. rewrite candidates_cons, Hn. lia. }
  assert (Hcand : candidate face c = Some (c, rename (raw_name_of face g)))
    by (unfold candidate, sanitize; rewrite Eg, Ei; reflexivity).
  set (P := rename (raw_name_of face g)) in *.
  destruct (duplicates st !! P) as [a|] eqn:Ea.
  - destruct (overflow_checks && (u32_limit <=? a + 1)%N) eqn:Eb.
    + injection Hrun as <-. apply andb_true_iff in Eb as [Eo Hge]. apply N.leb_le in Hge.
      exists c, P. split; [left; reflexivity|]. split; [exact Hcand|].
      right; right. split; [exact Eo|]. split; [reflexivity|].
      rewrite Ea, candidates_cons, Hcand, occurrences_cons, decide_True by reflexivity.
      cbn [default id]. lia.
    + eapply Hlift; [|exact Hrun]. intros q. cbn [duplicates].
      rewrite candidates_cons, Hcand, occurrences_cons.
      destruct (decide (P = q)) as [<-|Hne].
      * rewrite lookup_insert_eq, Ea. cbn [default id].
        pose proof (N.Div0.mod_le (a + 1) u32_limit). lia.
      * rewrite lookup_insert_ne by exact Hne. lia.
  - destruct (ident_ok P) eqn:Eo; cbn [negb] in Hrun.
    + destruct (shaping_of shaping) as [sh|] eqn:Es.
      * eapply Hlift; [|exact Hrun]. intros q. cbn [duplicates].
        rewrite candidates_cons, Hcand, occurrences_cons.
        destruct (decide (P = q)) as [<-|Hne].
        -- rewrite lookup_insert_eq, Ea. cbn [default id]. lia.
        -- rewrite lookup_insert_ne by exact Hne. lia.
      * injection Hrun as <-. exists c, P. split; [left; reflexivity|].
        split; [exact Hcand|]. right; left. auto.
    + injection Hrun as <-. exists c, P. split; [left; reflexivity|].
      split; [exact Hcand|]. left. auto.
Qed.

(** X11: the only ways a pass panics are the unreadable file, the unparsable
    font, the missing cmap table, and, at an emitted glyph of the Unicode
    subtable, a canonical name rejected by [Ident::new_raw], a shaping
    string other than "basic" and "advanced", or, when the macro is built
    with overflow checks, a canonical name claimed by 2^32 or more emitted
    glyphs, whose registry counter overflows at [*amount + 1]. *)
Theorem body_error_cases (ident_ok : str -> bool) (overflow_checks : bool) fs face_parse
    (feature_advanced_text : bool) (input : Input) (shaping : str) (e : Panic) :
  body ident_ok overflow_checks fs face_parse feature_advanced_text input shaping = Err e ->
  (fs (font_path input) = None /\ e = FailedToReadFontFile) \/
  (exists bytes, fs (font_path input) = Some bytes /\ face_parse bytes = None /\
                 e = FailedToParseFont) \/
  (exists bytes face, fs (font_path input) = Some bytes /\ face_parse bytes = Some face /\
                      cmap face = None /\ e = CmapUnwrap) \/
  (exists bytes face cps c p, fs (font_path input) = Some bytes /\
     face_parse bytes = Some face /\ all_codepoints face = Ok cps /\
     In c cps /\ candidate face c = Some (c, p) /\
     ((ident_ok p = false /\ e = InvalidIdent p) \/
      (ident_ok p = true /\ shaping_of shaping = None /\ e = InvalidShaping) \/
      (overflow_checks = true /\ e = AddOverflow /\
       (u32_limit <= N.of_nat (occurrences p (candidates face cps)))%N))).
Proof.
  unfold body. intros Hb.
  destruct (fs (font_path input)) as [bytes|] eqn:Efs; [|injection Hb as <-; left; auto].
  destruct (face_parse bytes) as [face|] eqn:Ep; [|injection Hb as <-; right; left; eauto].
  destruct (all_codepoints face) as [cps|e'] eqn:Ec.
  - destruct (run_loop ident_ok overflow_checks face (doc_link input) (font_name input) shaping init_state cps)
      eqn:Er; [discriminate|].
    injection Hb as <-.
    destruct (run_loop_error _ _ _ _ _ _ _ _ _ Er) as (c & p & Hin & Hcand & Hcase).
    right; right; right. exists bytes, face, cps, c, p.
    do 5 (split; [first [reflexivity | assumption]|]).
    destruct Hcase as [H1|[H2|(H3 & H4 & H5)]]; [left; exact H1|right; left; exact H2|].
    right; right. split; [exact H3|]. split; [exact H4|].
    cbn [init_state duplicates] in H5. rewrite lookup_empty in H5. cbn [default id] in H5.
    rewrite N.add_0_l in H5. exact H5.
  - injection Hb as <-. right; right; left. exists bytes, face.
    unfold all_codepoints in Ec. destruct (cmap face); [|injection Ec as <-; auto].
    destruct (find is_unicode l); discriminate.
Qed.

Lemma body_error_cases_witness :
  exists bytes face cps c p, sample_fs (font_path sample_input) = Some bytes /\
     (fun _ : list Byte.byte => Some sample_face) bytes = Some face /\
     all_codepoints face = Ok cps /\ In c cps /\ candidate face c = Some (c, p) /\
     ((sample_ident_ok p = false /\ InvalidShaping = InvalidIdent p) \/
      (sample_ident_ok p = true /\ shaping_of (lit "fancy") = None /\
       InvalidShaping = InvalidShaping) \/
      (true = true /\ InvalidShaping = AddOverflow /\
       (u32_limit <= N.of_nat (occurrences p (candidates face cps)))%N)).
Proof.
  destruct (body_error_cases sample_ident_ok true sample_fs (fun _ => Some sample_face) false
              sample_input (lit "fancy") InvalidShaping ltac:(vm_compute; reflexivity))
    as [[H _]|[(b & _ & H & _)|[(b & f & _ & H2 & H3 & _)|H]]].
  - vm_compute in H. discriminate H.
  - vm_compute in H. discriminate H.
  - injection H2 as <-. vm_compute in H3. discriminate H3.
  - exact H.
Defined.

Lemma first_wins_elem (l : list (char * str)) :
  forall (seen : list str) x, x ∈ first_wins seen l -> x ∈ l.
Proof.
  induction l as [|[c p] l IH]; intros seen x; simpl; [done|].
  case_decide.
  - intros Hx. apply elem_of_cons. right. eapply IH. exact Hx.
  - rewrite !elem_of_cons. intros [->|Hx]; [auto|]. right. eapply IH. exact Hx.
Qed.

Lemma NoDup_fst_of_snd (l : list (char * str)) :
  NoDup (map snd l) ->
  (forall c p p', (c, p) ∈ l -> (c, p') ∈ l -> p = p') ->
  NoDup (map fst l).
Proof.
  induction l as [|[c p] l IH]; intros Hnd Hf; simpl; [constructor|].
  inversion Hnd as [|? ? Hnot Hnd']; subst. constructor.
  - intros Hc. apply list_elem_of_In, in_map_iff in Hc as [[c' p'] [Ec Hin]]. simpl in Ec. subst c'.
    assert (p' = p).
    { apply (Hf c); apply elem_of_cons; [right; apply list_elem_of_In, Hin|left; reflexivity]. }
    subst p'. apply Hnot. apply list_elem_of_In, (in_map snd _ (c, p)), Hin.
  - apply IH; [exact Hnd'|]. intros c0 q q' Hq Hq'.
    apply (Hf c0); apply elem_of_cons; right; assumption.
Qed.

(** X13: no codepoint gets two functions: the characters of the emitted
    widget functions are pairwise distinct, even when the Unicode subtable
    lists a codepoint more than once. *)
Theorem emitted_chars_distinct (ident_ok : str -> bool) (overflow_checks : bool) fs face_parse
    (feature_advanced_text : bool) (input : Input) (shaping : str)
    (bytes : list Byte.byte) (face : Face) (cps : list char) (m : OutputModule) :
  fs (font_path input) = Some bytes -> face_parse bytes = Some face ->
  all_codepoints face = Ok cps ->
  body ident_ok overflow_checks fs face_parse feature_advanced_text input shaping = Ok m ->
  NoDup (map w_char (mod_functions m)).
Proof.
  intros Hfs Hp Hc Hb.
  destruct (body_fragments ident_ok overflow_checks fs face_parse feature_advanced_text input shaping
              bytes face cps m Hfs Hp Hc Hb) as (H1 & _).
  rewrite map_w_char, H1. apply NoDup_fst_of_snd.
  - apply (first_wins_names (candidates face cps) []).
  - intros c p p' Hp1 Hp2.
    apply first_wins_elem, list_elem_of_omap in Hp1 as [c1 [_ E1]].
    apply first_wins_elem, list_elem_of_omap in Hp2 as [c2 [_ E2]].
    pose proof (candidate_fst _ _ _ _ E1) as ->. pose proof (candidate_fst _ _ _ _ E2) as ->.
    congruence.
Qed.

Lemma emitted_chars_distinct_witness :
  NoDup (map w_char (mod_functions (default sample_module
    (match body sample_ident_ok true sample_fs (fun _ => Some repeated_face) true sample_input
             (lit "basic") with Ok m => Some m | Err _ => None end)))).
Proof.
  apply (emitted_chars_distinct sample_ident_ok true sample_fs (fun _ => Some repeated_face) true
           sample_input (lit "basic") [Byte.x00; Byte.x01] repeated_face [57344; 57345; 57344]%N).
  - reflexivity.
  - reflexivity.
  - reflexivity.
  - vm_compute. reflexivity.
Defined.
